(** * rate_mate: consumption against capacity, grouped by subtype prefix

    A shallow embedding of the aggregation engine of [rate_mate.py]
    ([compute_totals], [group_prefix], [build_group_summary], the detail
    table built in the "Detailed Subtype Summary" block, [fmt_parenthesis])
    and the properties the specification states about it.

    Modelling choices.
    - Column names, unit types and actions are [string]s.
    - A numeric cell is a 64-bit integer, as pandas holds a column of
      integers (dtype int64): a [Z] in the range of int64.  Products, sums
      and differences of such numbers wrap around ([wrap64]), as numpy
      computes them.  A column with a decimal fraction is held as float64
      and rounds instead; such columns are modelled apart ([Float64]), for
      the property that rounding decides.
    - A pandas [Series] indexed by column name (the totals) and a Python
      [dict] (the unit counts, a summary row) are finite maps [gmap string _];
      a label missing from a Series raises [KeyError], modelled as [None].
    - A cell that a row's map does not hold is a missing value (NaN):
      pandas' [sum] skips it.
    - [fmt_parenthesis] is applied to a missing value, an integer or a float;
      a float is given by its IEEE 754 sign, mantissa and exponent, so that
      [int(x)] is the truncation of a binary fraction.
    - An exception of the program ([KeyError], [ValueError],
      [OverflowError]) is the result [None]. *)

From Stdlib Require Import ZArith Ascii String List SpecFloat DecimalString.
From Stdlib Require Import DecimalN DecimalPos.
From stdpp Require Import base option list sorting gmap strings fin_maps.

Local Open Scope Z_scope.

#[local] Set Warnings "-clear-no-such-hyp".

(** Let [simpl] compute a string append whose first argument starts with a
    constructor. *)
#[local] Arguments String.append !s1 s2 / : simpl nomatch.

(** ** Python string operations used by the program *)

Module PyStr.

(** [s.startswith(p)] *)
Definition startswith (p s : string) : bool := String.prefix p s.

(** [p in s] for strings: [p] occurs somewhere in [s]. *)
Fixpoint contains (p s : string) : bool :=
  match s with
  | EmptyString => startswith p s
  | String _ s' => startswith p s || contains p s'
  end.

(** [s.split(sep)] for a one-character separator: the first token and the
    tokens after it ([split] never returns an empty list). *)
Fixpoint split_go (sep : ascii) (s : string) : string * list string :=
  match s with
  | EmptyString => (EmptyString, [])
  | String c s' =>
      let '(h, t) := split_go sep s' in
      if Ascii.eqb c sep then (EmptyString, h :: t) else (String c h, t)
  end.

Definition split (sep : ascii) (s : string) : list string :=
  let '(h, t) := split_go sep s in h :: t.

(** [s.replace(old, "")] for a non-empty [old]: one pass from the left,
    every occurrence found is dropped and the scan resumes after it.
    [skip] counts the characters of the current occurrence still to drop. *)
Fixpoint remove_go (old : string) (skip : nat) (s : string) : string :=
  match s with
  | EmptyString => EmptyString
  | String c s' =>
      match skip with
      | S k => remove_go old k s'
      | O =>
          if startswith old s
          then remove_go old (Nat.pred (String.length old)) s'
          else String c (remove_go old O s')
      end
  end.

Definition remove (old s : string) : string := remove_go old O s.

(** [sep.join(l)] *)
Fixpoint join (sep : string) (l : list string) : string :=
  match l with
  | [] => EmptyString
  | [x] => x
  | x :: l' => x +:+ sep +:+ join sep l'
  end.

(** [s.endswith(p)]: some suffix of [s] is [p]. *)
Fixpoint endswith (p s : string) : bool :=
  String.eqb s p ||
  match s with
  | EmptyString => false
  | String _ s' => endswith p s'
  end.

End PyStr.

(** ** Constants *)

Definition RATE_SUFFIX : string := "_rate".
Definition CAP_SUFFIX : string := "_cap".

(** ** [group_prefix] *)

(** The two list indexings [parts[0]] and [parts[1]] cannot fail where the
    code performs them (lemma [group_prefix_index_ok]); the unreachable
    branches return the empty string. *)
Definition group_prefix (col : string) : string :=
  if PyStr.startswith "CL_" col then
    match PyStr.split "_" col with
    | p0 :: p1 :: _ => p0 +:+ "_" +:+ p1
    | _ => EmptyString
    end
  else if PyStr.startswith "Recovery_" col then "Recovery"
  else
    match PyStr.split "_" col with
    | p0 :: _ => p0
    | [] => EmptyString
    end.

(** ** Tables, series and unit counts *)

(** The int64 number that an integer wraps around to: the one congruent to
    it modulo [2^64] in the range from [-2^63] to [2^63 - 1]. *)
Definition wrap64 (z : Z) : Z :=
  (z + 9223372036854775808) mod 18446744073709551616 - 9223372036854775808.

(** Sum of a list of int64 numbers (pandas' [Series.sum], Python's [sum] over
    numpy scalars): every addition wraps around. *)
Definition Zsum (l : list Z) : Z := foldr (λ x acc, wrap64 (x + acc)) 0 l.

(** A row of an input table.  [cells] holds the numeric columns; a column of
    the table that [cells] does not hold is a missing value.  The capacity
    table need not have an [action] column: the code never reads it there. *)
Record row := Row {
  unit_type : string;
  action : string;
  cells : gmap string Z
}.

(** A table: the names of its numeric columns and its rows. *)
Record DataFrame := Frame {
  columns : list string;
  rows : list row
}.

(** A row of [req_detail] / [cap_detail]: the columns
    [unit_type, (action,) count] and the selected columns, scaled. *)
Record detail_row := Detail {
  d_unit_type : string;
  d_action : option string;
  d_count : Z;
  d_cells : gmap string Z
}.

(** [df["unit_type"].map(unit_counts).fillna(0).astype(int)], for one row. *)
Definition resolve_count (unit_counts : gmap string Z) (u : string) : Z :=
  default 0 (unit_counts !! u).

(** The columns that a detail table always has, before the selected ones. *)
Definition req_fixed : list string := ["unit_type"; "action"; "count"].
Definition cap_fixed : list string := ["unit_type"; "count"].

(** [df[fixed + sel]] and the assignment to [detail.loc[:, sel]]: selecting
    a column the table does not have raises [KeyError], and when a label
    occurs twice among the columns [fixed + sel] of the detail table (a
    column selected twice, or one of the fixed columns selected) the
    assignment raises [ValueError]. *)
Definition select_ok (df : DataFrame) (fixed sel : list string) : bool :=
  forallb (λ c, bool_decide (c ∈ columns df)) sel
  && bool_decide (NoDup (fixed ++ sel)).

(** [detail[sel].multiply(detail["count"], axis=0)], for one row: the
    selected cells, each times the row's count in int64 (a missing cell
    stays missing). *)
Definition scale_cells (sel : list string) (count : Z) (cs : gmap string Z)
  : gmap string Z :=
  (λ v, wrap64 (v * count)) <$> filter (λ kv, kv.1 ∈ sel) cs.

(** [detail[sel].sum()]: the series indexed by [sel] of the column sums,
    missing values skipped. *)
Definition column_sums (sel : list string) (detail : list detail_row)
  : gmap string Z :=
  list_to_map ((λ c, (c, Zsum (omap (λ d, d_cells d !! c) detail))) <$> sel).

(** ** [compute_totals] *)

Definition compute_totals (cons_df cap_df : DataFrame) (act : string)
    (unit_counts : gmap string Z) (sel_rates sel_caps : list string)
  : option (list detail_row * list detail_row * gmap string Z * gmap string Z) :=
  (* Consumption *)
  let req := filter (λ r, action r = act) (rows cons_df) in
  if negb (select_ok cons_df req_fixed sel_rates) then None else
  let req_detail :=
    (λ r, let count := resolve_count unit_counts (unit_type r) in
          Detail (unit_type r) (Some (action r)) count
                 (scale_cells sel_rates count (cells r))) <$> req in
  let total_req := column_sums sel_rates req_detail in
  (* Capacity *)
  let cap := rows cap_df in
  if negb (select_ok cap_df cap_fixed sel_caps) then None else
  let cap_detail :=
    (λ r, let count := resolve_count unit_counts (unit_type r) in
          Detail (unit_type r) None count
                 (scale_cells sel_caps count (cells r))) <$> cap in
  let total_cap := column_sums sel_caps cap_detail in
  Some (req_detail, cap_detail, total_req, total_cap).

(** ** [build_group_summary] *)

(** A value of a summary row: a number or a string. *)
Inductive value :=
  | VNum (z : Z)
  | VStr (s : string).

(** [series[labels].sum()]; a label the series does not have raises
    [KeyError]. *)
Definition series_sum (s : gmap string Z) (labels : list string) : option Z :=
  Zsum <$> mapM (λ c, s !! c) labels.

(** [series[labels].sum() if labels else 0] *)
Definition sum_or_zero (s : gmap string Z) (labels : list string) : option Z :=
  match labels with
  | [] => Some 0
  | _ => series_sum s labels
  end.

(** [series[keys].sum() if keys else None] *)
Definition sum_or_none (s : gmap string Z) (keys : list string)
  : option (option Z) :=
  match keys with
  | [] => Some None
  | _ => Some <$> series_sum s keys
  end.

(** The base subtype name of a rate column: [rate.replace(RATE_SUFFIX, "")]. *)
Definition base_name (rate : string) : string := PyStr.remove RATE_SUFFIX rate.

(** [[c for c in sel_caps if c.startswith(base)]] *)
Definition cap_matches (sel_caps : list string) (base : string) : list string :=
  filter (λ c, PyStr.startswith base c = true) sel_caps.

(** The loop over [grp_rates] that collects the deficit subtypes. *)
Fixpoint deficit_loop (total_req total_cap : gmap string Z)
    (sel_caps grp_rates : list string) : option (list string) :=
  match grp_rates with
  | [] => Some []
  | rate :: rest =>
      let base := base_name rate in
      r ← total_req !! rate;
      s ← series_sum total_cap (cap_matches sel_caps base);
      tl ← deficit_loop total_req total_cap sel_caps rest;
      Some (if s <? r then base :: tl else tl)
  end.

(** [", ".join(deficit) if deficit else "-"] *)
Definition deficit_text (deficit : list string) : string :=
  match deficit with
  | [] => "-"
  | _ => PyStr.join ", " deficit
  end.

(** The members of a group among the selected columns. *)
Definition group_members (sel : list string) (grp : string) : list string :=
  filter (λ c, group_prefix c = grp) sel.

(** [if x is not None: row[k1] = x; row[k2] = y] *)
Definition set_pair (k1 k2 : string) (x y : option Z)
    (r : gmap string value) : gmap string value :=
  match x, y with
  | Some a, Some b => <[k2 := VNum b]> (<[k1 := VNum a]> r)
  | _, _ => r
  end.

(** The row dictionary of one group: the five fields always set, then the
    bulk pair and the wheeled pair when their sums are not [None]. *)
Definition summary_row (grp : string) (req_sum cap_sum surplus : Z)
    (deficit : list string) (bulk_sum bulk_surp wheel_sum wheel_surp : option Z)
  : gmap string value :=
  let r : gmap string value :=
    <["Deficit Subtypes" := VStr (deficit_text deficit)]>
      (<["Surplus/(Deficit)" := VNum surplus]>
        (<["Capacity" := VNum cap_sum]>
          (<["Requirement" := VNum req_sum]>
            (<["Group" := VStr grp]> ∅)))) in
  set_pair "Wheeled Cap" "Wheeled Surplus" wheel_sum wheel_surp
    (set_pair "Bulk Cap" "Bulk Surplus" bulk_sum bulk_surp r).

(** The body of the loop over the groups: the row of one group. *)
Definition group_row (total_req total_cap : gmap string Z)
    (sel_rates sel_caps : list string) (grp : string)
  : option (gmap string value) :=
  let grp_rates := group_members sel_rates grp in
  let grp_caps := group_members sel_caps grp in
  req_sum ← sum_or_zero total_req grp_rates;
  cap_sum ← sum_or_zero total_cap grp_caps;
  let surplus := wrap64 (cap_sum - req_sum) in
  let bulk_keys := filter (λ c, PyStr.contains "_bulk_cap" c = true) grp_caps in
  let wheel_keys := filter (λ c, PyStr.contains "_wheeled_cap" c = true) grp_caps in
  bulk_sum ← sum_or_none total_cap bulk_keys;
  wheel_sum ← sum_or_none total_cap wheel_keys;
  let bulk_surp := (λ b, wrap64 (b - req_sum)) <$> bulk_sum in
  let wheel_surp := (λ w, wrap64 (w - req_sum)) <$> wheel_sum in
  deficit ← (if surplus <? 0
             then deficit_loop total_req total_cap sel_caps grp_rates
             else Some []);
  Some (summary_row grp req_sum cap_sum surplus deficit
          bulk_sum bulk_surp wheel_sum wheel_surp).

(** [sorted({group_prefix(c) for c in sel_rates + sel_caps})] *)
Definition group_names (sel_rates sel_caps : list string) : list string :=
  merge_sort String.le (remove_dups (group_prefix <$> (sel_rates ++ sel_caps))).

(** The summary is the list of the rows, in the order of the groups.
    [pd.DataFrame(rows).set_index("Group")] raises [KeyError] when there is no
    row, the frame having no column [Group] then. *)
Definition build_group_summary (total_req total_cap : gmap string Z)
    (sel_rates sel_caps : list string) : option (list (gmap string value)) :=
  rows ← mapM (group_row total_req total_cap sel_rates sel_caps)
              (group_names sel_rates sel_caps);
  match rows with
  | [] => None
  | _ => Some rows
  end.

(** ** The detail table ([comp_rows]) *)

Definition comp_row (total_req total_cap : gmap string Z)
    (selected_caps : list string) (rate : string) : option (gmap string value) :=
  let base := base_name rate in
  let caps := cap_matches selected_caps base in
  cap_sum ← series_sum total_cap caps;
  req_val ← total_req !! rate;
  Some (<["Surplus/(Deficit)" := VNum (wrap64 (cap_sum - req_val))]>
         (<["Capacity" := VNum cap_sum]>
           (<["Requirement" := VNum req_val]>
             (<["Subtype" := VStr base]> (∅ : gmap string value))))).

Definition comp_rows (total_req total_cap : gmap string Z)
    (selected_rates selected_caps : list string)
  : option (list (gmap string value)) :=
  mapM (comp_row total_req total_cap selected_caps) selected_rates.

(** ** [fmt_parenthesis] *)

(** What the formatter is applied to: a missing value ([None]), a Python or
    numpy integer, or a 64-bit float, given by its IEEE 754 decomposition
    (sign, mantissa, exponent: the finite float is [±m·2^e]). *)
Inductive number :=
  | NoneVal
  | IntVal (i : Z)
  | FloatVal (f : spec_float).

(** [pd.isna(x)] *)
Definition isna (x : number) : bool :=
  match x with
  | NoneVal => true
  | FloatVal S754_nan => true
  | _ => false
  end.

(** [int(x)]: a float is truncated toward zero; [int] of an infinite float
    raises [OverflowError] and of a NaN [ValueError]. *)
Definition to_int (x : number) : option Z :=
  match x with
  | NoneVal => None
  | IntVal i => Some i
  | FloatVal (S754_zero _) => Some 0
  | FloatVal (S754_finite s m e) =>
      let a := Z.shiftl (Z.pos m) e in
      Some (if s then - a else a)
  | FloatVal (S754_infinity _) => None
  | FloatVal S754_nan => None
  end.

(** The decimal numeral of a natural number ([str(n)]). *)
Definition digits (n : Z) : string :=
  NilZero.string_of_uint (N.to_uint (Z.to_N n)).

(** The thousands separators of the format [","]: a comma after every digit
    that is followed by a positive multiple of three digits. *)
Fixpoint group3 (s : string) : string :=
  match s with
  | EmptyString => EmptyString
  | String c s' =>
      let k := String.length s' in
      String c (if (0 <? k)%nat && (k mod 3 =? 0)%nat
                then String "," (group3 s')
                else group3 s')
  end.

(** [f"{i:,}"] *)
Definition format_comma (i : Z) : string :=
  if i <? 0 then "-" +:+ group3 (digits (- i)) else group3 (digits i).

Definition fmt_parenthesis (x : number) : option string :=
  if isna x then Some "-"
  else
    i ← to_int x;
    Some (if i <? 0 then "(" +:+ format_comma (Z.abs i) +:+ ")"
          else format_comma i).

(** ** Loading and validation *)

(** A CSV file as [pd.read_csv] returns it: the names of all its columns,
    and its rows. *)
Record csv := Csv {
  csv_columns : list string;
  csv_rows : list row
}.

(** The outcome of a step of the script: [st.error(msg); st.stop()] halts
    the run with a message; an exception that nothing catches ends it
    ([Raise]); otherwise the step returns. *)
Inductive outcome (A : Type) :=
  | Stop (msg : string)
  | Raise
  | Ok (a : A).
Arguments Stop {A} msg.
Arguments Raise {A}.
Arguments Ok {A} a.

Definition CONSUMPTION_CSV : string := "consumption.csv".
Definition CAPACITY_CSV : string := "capacities.csv".

(** [any(col.endswith(suffix) for col in df.columns)] *)
Definition any_endswith (suffix : string) (df : csv) : bool :=
  existsb (PyStr.endswith suffix) (csv_columns df).

(** [load_consumption].  [files] maps each path that exists to what
    [pd.read_csv] makes of it: a table, or [None] when reading it raises
    (an empty file, a malformed one, a directory). *)
Definition load_consumption (files : gmap string (option csv)) (path : string)
  : outcome csv :=
  match files !! path with
  | None => Stop ("Consumption CSV not found: " +:+ path)
  | Some None => Raise
  | Some (Some df) =>
      if negb (bool_decide ("unit_type" ∈ csv_columns df))
         || negb (bool_decide ("action" ∈ csv_columns df))
      then Stop (path +:+ " must contain 'unit_type' and 'action' columns.")
      else if negb (any_endswith RATE_SUFFIX df)
      then Stop (path +:+ " must contain at least one '" +:+ RATE_SUFFIX
                      +:+ "' column.")
      else Ok df
  end.

(** [load_capacity] *)
Definition load_capacity (files : gmap string (option csv)) (path : string)
  : outcome csv :=
  match files !! path with
  | None => Stop ("Capacity CSV not found: " +:+ path)
  | Some None => Raise
  | Some (Some df) =>
      if negb (bool_decide ("unit_type" ∈ csv_columns df))
      then Stop (path +:+ " must contain 'unit_type' column.")
      else if negb (any_endswith CAP_SUFFIX df)
      then Stop (path +:+ " must contain at least one '" +:+ CAP_SUFFIX
                      +:+ "' column.")
      else Ok df
  end.

(** The body of [load_data]. *)
Definition load_data_body (files : gmap string (option csv))
  : outcome (csv * csv) :=
  match load_consumption files CONSUMPTION_CSV with
  | Stop msg => Stop msg
  | Raise => Raise
  | Ok cons_df =>
      match load_capacity files CAPACITY_CSV with
      | Stop msg => Stop msg
      | Raise => Raise
      | Ok cap_df => Ok (cons_df, cap_df)
      end
  end.

(** [load_data], decorated with [@st.cache_data]: a call finds the cache
    empty or filled.  On an empty cache the body runs, and its result is
    stored if it returns (a run that stops or raises stores nothing); on a
    filled cache the stored tables are returned and no file is read.  The
    result comes with the cache after the call. *)
Definition load_data (cache : option (csv * csv))
    (files : gmap string (option csv))
  : outcome (csv * csv) * option (csv * csv) :=
  match cache with
  | Some tables => (Ok tables, cache)
  | None =>
      match load_data_body files with
      | Ok tables => (Ok tables, Some tables)
      | Stop msg => (Stop msg, None)
      | Raise => (Raise, None)
      end
  end.

(** ** The inputs of the script *)

(** [[c for c in df.columns if c.endswith(suffix)]]: the columns offered for
    selection, and selected by default. *)
Definition suffix_cols (suffix : string) (df : csv) : list string :=
  filter (λ c, PyStr.endswith suffix c = true) (csv_columns df).

Definition rate_cols (cons_df : csv) : list string := suffix_cols RATE_SUFFIX cons_df.
Definition cap_cols (cap_df : csv) : list string := suffix_cols CAP_SUFFIX cap_df.

(** The table the computation works on: the columns besides [unit_type] and
    [action], and the rows. *)
Definition frame_of (df : csv) : DataFrame :=
  Frame (filter (λ c, c ≠ "unit_type" ∧ c ≠ "action") (csv_columns df))
        (csv_rows df).

(** [{u: st.sidebar.number_input(..., min_value=0, ...)
      for u in cons_df["unit_type"].unique()}]: one count per unit type of
    the consumption table, as entered ([entered u], not negative). *)
Definition unit_counts_of (cons_df : csv) (entered : string → N)
  : gmap string Z :=
  list_to_map ((λ u, (u, Z.of_N (entered u)))
                 <$> remove_dups (unit_type <$> csv_rows cons_df)).

(** ** Tables with float64 columns *)

(** A column that holds a decimal fraction is a float64 column.  The part of
    [compute_totals] that makes the total requirement of one such column is
    modelled here with the IEEE 754 binary64 operations. *)
Module Float64.

Definition prec : Z := 53.
Definition emax : Z := 1024.

Definition add (x y : spec_float) : spec_float := SFadd prec emax x y.





End Float64.

(** ** The scenario of the specification *)

Module Scenario.
Definition cons_df : DataFrame :=
  Frame ["CL_III_rate"]
        [Row "InfantryCo" "Assault" {["CL_III_rate" := 10]}].
Definition cap_df : DataFrame :=
  Frame ["CL_III_bulk_cap"; "CL_III_wheeled_cap"]
        [Row "InfantryCo" ""
             (<["CL_III_bulk_cap" := 4]> {["CL_III_wheeled_cap" := 3]})].
Definition unit_counts : gmap string Z := {["InfantryCo" := 2]}.
Definition sel_rates : list string := ["CL_III_rate"].
Definition sel_caps : list string := ["CL_III_bulk_cap"; "CL_III_wheeled_cap"].
Definition total_req : gmap string Z := {["CL_III_rate" := 20]}.
Definition total_cap : gmap string Z :=
  <["CL_III_bulk_cap" := 8]> {["CL_III_wheeled_cap" := 6]}.
Definition row : gmap string value :=
  summary_row "CL_III" 20 14 (-6) ["CL_III"]
    (Some 8) (Some (-12)) (Some 6) (Some (-14)).
End Scenario.

(** A selection with two groups: [CL_III], short of capacity, and
    [Javelin], with capacity to spare. *)
Module TwoGroups.
Definition sel_rates : list string := ["CL_III_rate"; "Javelin_rate"].
Definition sel_caps : list string :=
  ["CL_III_bulk_cap"; "CL_III_wheeled_cap"; "Javelin_cap"].
Definition total_req : gmap string Z :=
  <["CL_III_rate" := 20]> {["Javelin_rate" := 7]}.
Definition total_cap : gmap string Z :=
  <["CL_III_bulk_cap" := 8]>
    (<["CL_III_wheeled_cap" := 6]> {["Javelin_cap" := 9]}).
Definition row_CL_III : gmap string value :=
  summary_row "CL_III" 20 14 (-6) ["CL_III"]
    (Some 8) (Some (-12)) (Some 6) (Some (-14)).
Definition row_Javelin : gmap string value :=
  summary_row "Javelin" 7 9 2 [] None None None None.
End TwoGroups.

(** A selection with two groups of several subtypes.  In [Ammo] the
    subtypes [a] and [c] are short and the group is short; in [Fuel] the
    subtype [x] is short but the group is not. *)
Module Shortfalls.
Definition sel_rates : list string :=
  ["Ammo_a_rate"; "Fuel_x_rate"; "Ammo_b_rate"; "Fuel_y_rate"; "Ammo_c_rate"].
Definition sel_caps : list string :=
  ["Ammo_a_cap"; "Ammo_b_cap"; "Fuel_x_cap"; "Fuel_y_cap"].
Definition total_req : gmap string Z :=
  <["Ammo_a_rate" := 5]> (<["Ammo_b_rate" := 2]> (<["Ammo_c_rate" := 9]>
    (<["Fuel_x_rate" := 4]> {["Fuel_y_rate" := 1]}))).
Definition total_cap : gmap string Z :=
  <["Ammo_a_cap" := 1]> (<["Ammo_b_cap" := 3]>
    (<["Fuel_x_cap" := 1]> {["Fuel_y_cap" := 10]})).
Definition row_Ammo : gmap string value :=
  summary_row "Ammo" 16 4 (-12) ["Ammo_a"; "Ammo_c"] None None None None.
Definition row_Fuel : gmap string value :=
  summary_row "Fuel" 5 11 6 [] None None None None.
End Shortfalls.

(** The two files of the scenario. *)
Module ScenarioFiles.
Definition cons_csv : csv :=
  Csv ["unit_type"; "action"; "CL_III_rate"] (rows Scenario.cons_df).
Definition cap_csv : csv :=
  Csv ["unit_type"; "CL_III_bulk_cap"; "CL_III_wheeled_cap"]
      (rows Scenario.cap_df).
Definition files : gmap string (option csv) :=
  <[CONSUMPTION_CSV := Some cons_csv]> {[CAPACITY_CSV := Some cap_csv]}.
Definition entered (u : string) : N := 2%N.
End ScenarioFiles.

(** ** Notions used to state the properties *)

(** [occurs_char a s]: the character [a] occurs in [s]. *)
Fixpoint occurs_char (a : ascii) (s : string) : bool :=
  match s with
  | EmptyString => false
  | String c s' => Ascii.eqb c a || occurs_char a s'
  end.

(** [first_token sep s h]: [h] is the first [sep]-delimited token of [s]: it
    holds no separator, and [s] is [h] alone or [h], a separator and more. *)
Definition first_token (sep : ascii) (s h : string) : Prop :=
  occurs_char sep h = false ∧ (s = h ∨ ∃ rest, s = h +:+ String sep rest).



(** A letter, as in a roman numeral or a class letter. *)
Definition is_letter (c : ascii) : bool :=
  let n := nat_of_ascii c in
  ((65 <=? n) && (n <=? 90) || (97 <=? n) && (n <=? 122))%nat.

Fixpoint all_letters (t : string) : bool :=
  match t with
  | EmptyString => true
  | String c t' => is_letter c && all_letters t'
  end.

(** A token made of one or more letters. *)
Definition letters_token (t : string) : bool :=
  match t with
  | EmptyString => false
  | _ => all_letters t
  end.

(** The classifier as the specification words it: rule 1 applies to a name
    whose first two tokens are [CL] and a roman numeral or letter. *)
Definition spec_group_prefix (col : string) : string :=
  let parts := PyStr.split "_" col in
  let rules_2_3 :=
    if PyStr.startswith "Recovery_" col then "Recovery"
    else match parts with p0 :: _ => p0 | [] => EmptyString end in
  match parts with
  | p0 :: p1 :: _ =>
      if String.eqb p0 "CL" && letters_token p1 then p0 +:+ "_" +:+ p1
      else rules_2_3
  | _ => rules_2_3
  end.

(** The range of int64. *)
Definition in_int64 (z : Z) : Prop :=
  -9223372036854775808 ≤ z < 9223372036854775808.

(** Two integers that differ by a multiple of [2^64]. *)
Definition congruent64 (a b : Z) : Prop :=
  ∃ k, a = b + k * 18446744073709551616.

(** [int64_of z v]: [v] is the int64 number that stands for the integer
    [z]: the number in the range of int64 that differs from [z] by a
    multiple of [2^64], which is [z] itself when [z] is in that range. *)
Definition int64_of (z v : Z) : Prop := in_int64 v ∧ congruent64 v z.

(** The sum of a list of integers, as a mathematical integer. *)
Definition exact_sum (l : list Z) : Z := foldr Z.add 0 l.

(** The count of a unit type: its entry in the mapping, 0 when it has none. *)
Definition count_of (unit_counts : gmap string Z) (u : string) : Z :=
  match unit_counts !! u with
  | Some n => n
  | None => 0
  end.

(** The value of a cell, a missing value counting for nothing. *)
Definition cell (r : row) (c : string) : Z :=
  match cells r !! c with
  | Some v => v
  | None => 0
  end.

(** The requirement of a rate column, as a mathematical integer: over the
    consumption rows of the chosen action, the rate times the count of the
    row's unit type. *)
Definition requirement_of (cons_df : DataFrame) (act : string)
    (unit_counts : gmap string Z) (c : string) : Z :=
  exact_sum ((λ r, if decide (action r = act)
                   then cell r c * count_of unit_counts (unit_type r)
                   else 0) <$> rows cons_df).

(** The capacity of a capacity column, as a mathematical integer: over all
    capacity rows, the capacity times the count of the row's unit type. *)
Definition capacity_of (cap_df : DataFrame)
    (unit_counts : gmap string Z) (c : string) : Z :=
  exact_sum ((λ r, cell r c * count_of unit_counts (unit_type r)) <$> rows cap_df).

(** The pointwise sum of two mappings of unit counts (a unit type that one
    of them lacks counts 0 there). *)
Definition pointwise_add (m1 m2 : gmap string Z) : gmap string Z :=
  union_with (λ a b, Some (a + b)) m1 m2.

(** [sum_over s labels v]: every label is in the series [s], and [v] is the
    sum of the values of [s] at [labels], as an int64 number. *)
Definition sum_over (s : gmap string Z) (labels : list string) (v : Z) : Prop :=
  ∃ vs, Forall2 (λ c x, s !! c = Some x) labels vs ∧ int64_of (exact_sum vs) v.

(** What a row of group [g] holds for one capacity split, given by the
    [marker] its columns contain and the two fields it is reported in: the
    pair of fields is there exactly when the group has a capacity column with
    the marker, and then holds the summed capacity of those columns and that
    sum minus the group's requirement [req], as an int64 number. *)
Definition split_fields (tc : gmap string Z) (sc : list string) (g : string)
    (req : Z) (row : gmap string value) (marker kcap ksurp : string) : Prop :=
  let keys := filter (λ c, PyStr.contains marker c = true)
                     (filter (λ c, group_prefix c = g) sc) in
  (is_Some (row !! kcap) ↔
   ∃ c, c ∈ sc ∧ group_prefix c = g ∧ PyStr.contains marker c = true) ∧
  (is_Some (row !! ksurp) ↔ is_Some (row !! kcap)) ∧
  (∀ v, row !! kcap = Some v →
        ∃ b surplus, sum_over tc keys b ∧ v = VNum b ∧
                     row !! ksurp = Some (VNum surplus) ∧
                     int64_of (b - req) surplus).

(** Suffix stripping: [s] without its final [suf], if it ends with it. *)
Fixpoint strip_suffix (suf s : string) : string :=
  if String.eqb s suf then EmptyString
  else match s with
       | EmptyString => EmptyString
       | String c s' => String c (strip_suffix suf s')
       end.

(** The capacity columns matched to a base name as the specification words
    it: those whose own base name (the name less [_cap]) starts with it. *)
Definition spec_cap_matches (sel_caps : list string) (base : string) : list string :=
  filter (λ c, PyStr.startswith base (strip_suffix CAP_SUFFIX c) = true) sel_caps.

(** The deficit list of group [g] as the specification words it: the rate
    column's base name is the name less its [_rate] suffix, and a capacity
    column matches when its base name starts with that. *)
Definition deficit_as_stated (tr tc : gmap string Z) (sr sc : list string)
    (g : string) (surplus : Z) (deficit : list string) : Prop :=
  ∀ b, b ∈ deficit ↔
       surplus < 0 ∧
       ∃ rate r s, rate ∈ sr ∧ group_prefix rate = g ∧
                   strip_suffix RATE_SUFFIX rate = b ∧
                   tr !! rate = Some r ∧
                   sum_over tc (spec_cap_matches sc b) s ∧ s < r.


Definition nonneg_counts (unit_counts : gmap string Z) : Prop :=
  ∀ u n, unit_counts !! u = Some n → 0 ≤ n.

(** The float nearest to -1234.9 and the float 5678.0. *)
Definition float_m1234_9 : spec_float := S754_finite true 5431147636562330 (-42).
Definition float_5678 : spec_float := S754_finite false 6243027022512128 (-40).

(** [truncates x i]: the integer [i] is the number [x] truncated toward
    zero: [i] has the sign of [x], and [|i| ≤ |x| < |i| + 1]. *)
Definition truncates (x : number) (i : Z) : Prop :=
  match x with
  | IntVal j => i = j
  | FloatVal (S754_zero _) => i = 0
  | FloatVal (S754_finite s m e) =>
      ∃ a, 0 ≤ a ∧ i = (if s then - a else a) ∧
           if 0 <=? e then a = Z.pos m * 2 ^ e
           else a * 2 ^ (- e) ≤ Z.pos m < (a + 1) * 2 ^ (- e)
  | _ => False
  end.

(** [in_deficit tr tc sc rate]: the rate column's own total requirement
    exceeds the summed totals of the capacity columns matched to it. *)
Definition in_deficit (tr tc : gmap string Z) (sc : list string)
    (rate : string) : bool :=
  match tr !! rate, series_sum tc (cap_matches sc (base_name rate)) with
  | Some r, Some s => s <? r
  | _, _ => false
  end.

(** The numbers a table holds in the field [k], and their sum. *)
Definition field_values (k : string) (table : list (gmap string value)) : list Z :=
  omap (λ row, match row !! k with
               | Some (VNum v) => Some v
               | _ => None
               end) table.

Definition field_sum (k : string) (table : list (gmap string value)) : Z :=
  exact_sum (field_values k table).

(** [selects P l chosen]: [chosen] holds the elements of [l] that satisfy
    [P], each as often as [l] holds it and in the order of [l]. *)
Inductive selects {A} (P : A → Prop) : list A → list A → Prop :=
  | selects_nil : selects P [] []
  | selects_take x l chosen :
      P x → selects P l chosen → selects P (x :: l) (x :: chosen)
  | selects_skip x l chosen :
      ¬ P x → selects P l chosen → selects P (x :: l) chosen.

(** [short tr tc sc rate]: the rate column's own total requirement exceeds
    the summed totals of the selected capacity columns whose name starts
    with its base name. *)
Definition short (tr tc : gmap string Z) (sc : list string) (rate : string)
  : Prop :=
  ∃ r m, tr !! rate = Some r ∧
         sum_over tc (filter (λ c, PyStr.startswith (base_name rate) c = true) sc) m ∧
         m < r.

(** The detail table as the specification words it: one row per selected
    rate column, the base name being the name less its [_rate] suffix. *)
Definition detail_as_stated (tr tc : gmap string Z) (sr sc : list string)
    (table : list (gmap string value)) : Prop :=
  Forall2 (λ rate row,
             let base := strip_suffix RATE_SUFFIX rate in
             ∃ req cap surplus,
               tr !! rate = Some req ∧
               sum_over tc (filter (λ c, PyStr.startswith base c = true) sc) cap ∧
               row !! "Subtype" = Some (VStr base) ∧
               row !! "Requirement" = Some (VNum req) ∧
               row !! "Capacity" = Some (VNum cap) ∧
               row !! "Surplus/(Deficit)" = Some (VNum surplus) ∧
               int64_of (cap - req) surplus)
          sr table.

(** The checks of the two loaders. *)
Definition consumption_ok (df : csv) : Prop :=
  "unit_type" ∈ csv_columns df ∧ "action" ∈ csv_columns df ∧
  ∃ c, c ∈ csv_columns df ∧ PyStr.endswith RATE_SUFFIX c = true.

Definition capacity_ok (df : csv) : Prop :=
  "unit_type" ∈ csv_columns df ∧
  ∃ c, c ∈ csv_columns df ∧ PyStr.endswith CAP_SUFFIX c = true.

(** A cache that is empty, or holds what an earlier run of the body of
    [load_data] returned. *)
Definition cache_sound (cache : option (csv * csv)) : Prop :=
  ∀ tables, cache = Some tables →
            ∃ files, load_data_body files = Ok tables.

(** The formatter as the specification words it: every input that is not
    missing is rendered. *)
Definition renders_every_number : Prop :=
  ∀ x, isna x = false → ∃ s, fmt_parenthesis x = Some s.

(** Reading a formatted number back: the separators are dropped, and a
    number in parentheses is negative. *)
Fixpoint strip_commas (s : string) : string :=
  match s with
  | EmptyString => EmptyString
  | String c s' =>
      if Ascii.eqb c "," then strip_commas s' else String c (strip_commas s')
  end.

Fixpoint drop_last (s : string) : string :=
  match s with
  | EmptyString => EmptyString
  | String c s' =>
      match s' with
      | EmptyString => EmptyString
      | _ => String c (drop_last s')
      end
  end.

Definition read_decimal (s : string) : option Z :=
  (λ d, Z.of_N (N.of_uint d)) <$> NilZero.uint_of_string s.

Definition unformat (s : string) : option Z :=
  match s with
  | String c rest =>
      if Ascii.eqb c "("
      then Z.opp <$> read_decimal (strip_commas (drop_last rest))
      else read_decimal (strip_commas s)
  | EmptyString => None
  end.

(** A decimal digit; a string of decimal digits. *)
Definition is_digit (c : ascii) : bool :=
  let n := nat_of_ascii c in ((48 <=? n) && (n <=? 57))%nat.

Fixpoint all_digits (s : string) : bool :=
  match s with
  | EmptyString => true
  | String c s' => is_digit c && all_digits s'
  end.

(** * Properties *)

(** ** Strings *)

Section StringFacts.

Lemma app_empty_r (s : string) : s +:+ "" = s.
Proof. induction s as [|a s IH]; simpl; [done | by rewrite IH]. Qed.

Lemma app_assoc_s (s1 s2 s3 : string) : (s1 +:+ s2) +:+ s3 = s1 +:+ s2 +:+ s3.
Proof. induction s1 as [|a s1 IH]; simpl; [done | by rewrite IH]. Qed.

Lemma startswith_iff (p s : string) :
  PyStr.startswith p s = true ↔ ∃ r, s = p +:+ r.
Proof.
  unfold PyStr.startswith. revert s.
  induction p as [|a p IH]; intros s.
  - destruct s; split; eauto.
  - destruct s as [|b s]; [split; [done | by intros [? ?]] |].
    change (String.prefix (String a p) (String b s))
      with (if ascii_dec a b then String.prefix p s else false).
    destruct (ascii_dec a b) as [->|Hne].
    + rewrite IH. split; intros [r Hr]; exists r; simpl;
        [by rewrite Hr | by injection Hr].
    + split; [done | intros [r Hr]; injection Hr; congruence].
Qed.

Lemma startswith_app (p r : string) : PyStr.startswith p (p +:+ r) = true.
Proof. apply startswith_iff. eauto. Qed.

End StringFacts.

Lemma split_go_shape (sep : ascii) (s : string) :
  occurs_char sep (PyStr.split_go sep s).1 = false ∧
  match (PyStr.split_go sep s).2 with
  | [] => s = (PyStr.split_go sep s).1
  | t1 :: t' =>
      ∃ rest, s = (PyStr.split_go sep s).1 +:+ String sep rest ∧
              PyStr.split_go sep rest = (t1, t')
  end.
Proof.
  induction s as [|c s [IH1 IH2]]; simpl; [done|].
  destruct (PyStr.split_go sep s) as [h t] eqn:Es; simpl in *.
  destruct (Ascii.eqb c sep) eqn:E; simpl.
  - apply Ascii.eqb_eq in E as ->. split; [done | by exists s].
  - rewrite E. split; [done|].
    destruct t as [|t1 t']; [by rewrite IH2 at 1 |].
    destruct IH2 as (rest & -> & Hr). by exists rest.
Qed.

Lemma split_go_first_token (sep : ascii) (s : string) :
  first_token sep s (PyStr.split_go sep s).1.
Proof.
  destruct (split_go_shape sep s) as [H1 H2]. split; [done|].
  destruct (PyStr.split_go sep s).2; [by left | right].
  destruct H2 as (rest & ? & _). by exists rest.
Qed.

Lemma first_token_unique (sep : ascii) (s h1 h2 : string) :
  first_token sep s h1 → first_token sep s h2 → h1 = h2.
Proof.
  revert s h2. induction h1 as [|a h1 IH]; intros s h2 [N1 S1] [N2 S2].
  - destruct h2 as [|b h2]; [done | exfalso].
    simpl in N2. apply orb_false_iff in N2 as [Nb _].
    destruct S1 as [->|[r1 ->]]; destruct S2 as [S2|[r2 S2]]; simplify_eq/=;
      by rewrite Ascii.eqb_refl in Nb.
  - simpl in N1. apply orb_false_iff in N1 as [Na N1].
    destruct h2 as [|b h2].
    + exfalso. destruct S1 as [->|[r1 ->]]; destruct S2 as [S2|[r2 S2]];
        simplify_eq/=; by rewrite Ascii.eqb_refl in Na.
    + simpl in N2. apply orb_false_iff in N2 as [Nb N2].
      assert (a = b ∧ first_token sep
                (match s with String _ s' => s' | _ => s end) h1
              ∧ first_token sep
                (match s with String _ s' => s' | _ => s end) h2) as (-> & F1 & F2).
      { destruct S1 as [->|[r1 ->]]; destruct S2 as [S2|[r2 S2]];
          simplify_eq/=; (split; [done |]); split; split; eauto. }
      f_equal. eapply IH; eauto.
Qed.

(** The list indexings of [group_prefix] are in range where they are
    evaluated: [split] returns at least one token, and at least two for a
    name that starts with [CL_]. *)
Lemma group_prefix_index_ok (col : string) :
  (∃ p0 t, PyStr.split "_" col = p0 :: t) ∧
  (PyStr.startswith "CL_" col = true →
   ∃ p1 t, PyStr.split "_" col = "CL" :: p1 :: t).
Proof.
  split.
  - unfold PyStr.split. destruct (PyStr.split_go "_" col); eauto.
  - intros [r ->]%startswith_iff. unfold PyStr.split. simpl.
    destruct (PyStr.split_go "_" r); eauto.
Qed.


(** ** The group classifier *)

(** C5 (as amended). Rule 1 applies to every name that starts with [CL_],
    whatever its second token is: the group is [CL_] followed by the second
    underscore-delimited token.  Otherwise a name that starts with
    [Recovery_] is in the group [Recovery]; otherwise the group is the first
    underscore-delimited token of the name. *)
Theorem group_prefix_rules (col : string) :
  (PyStr.startswith "CL_" col = true →
   ∃ rest t, col = "CL_" +:+ rest ∧ first_token "_" rest t ∧
             group_prefix col = "CL_" +:+ t) ∧
  (PyStr.startswith "CL_" col = false →
   PyStr.startswith "Recovery_" col = true →
   group_prefix col = "Recovery") ∧
  (PyStr.startswith "CL_" col = false →
   PyStr.startswith "Recovery_" col = false →
   first_token "_" col (group_prefix col)).
Proof.
  unfold group_prefix. split; [|split].
  - intros H. rewrite H. apply startswith_iff in H as [rest ->].
    exists rest, (PyStr.split_go "_" rest).1. split; [done|].
    split; [apply split_go_first_token |].
    unfold PyStr.split. simpl. by destruct (PyStr.split_go "_" rest).
  - by intros -> ->.
  - intros -> ->. unfold PyStr.split.
    pose proof (split_go_first_token "_" col) as F.
    by destruct (PyStr.split_go "_" col).
Qed.

Lemma group_prefix_rules_witness :
  (∃ rest t, "CL_III_bulk_cap" = "CL_" +:+ rest ∧ first_token "_" rest t ∧
             group_prefix "CL_III_bulk_cap" = "CL_" +:+ t) ∧
  group_prefix "Recovery_heavy_rate" = "Recovery" ∧
  first_token "_" "Javelin_rate" (group_prefix "Javelin_rate").
Proof.
  split; [|split].
  - apply (proj1 (group_prefix_rules "CL_III_bulk_cap")). reflexivity.
  - apply (proj1 (proj2 (group_prefix_rules "Recovery_heavy_rate"))); reflexivity.
  - apply (proj2 (proj2 (group_prefix_rules "Javelin_rate"))); reflexivity.
Defined.

(** C5 as stated fails: [CL_9_rate] does not start with [CL_] followed by a
    roman numeral or letter, so the stated rules give the first token [CL];
    the code gives [CL_9]. *)
Lemma group_prefix_not_as_stated :
  group_prefix "CL_9_rate" = "CL_9" ∧
  spec_group_prefix "CL_9_rate" = "CL" ∧
  group_prefix "CL_9_rate" ≠ spec_group_prefix "CL_9_rate".
Proof. split; [reflexivity | split; [reflexivity | discriminate]]. Qed.

(** The code and the stated rules agree on every name but those that start
    with [CL_] followed by a token that is no roman numeral or letter. *)
Lemma group_prefix_agrees (col : string) :
  PyStr.startswith "CL_" col = false ∨
  (∃ p1 t, PyStr.split "_" col = "CL" :: p1 :: t ∧ letters_token p1 = true) →
  group_prefix col = spec_group_prefix col.
Proof.
  unfold group_prefix, spec_group_prefix, PyStr.split.
  destruct (split_go_shape "_" col) as [_ F].
  destruct (PyStr.split_go "_" col) as [h tl]; simpl in *.
  intros [H|(p1 & t & Hs & Hl)].
  - rewrite H. destruct tl as [|p1 tl]; [done|].
    destruct (String.eqb h "CL") eqn:E; [|done].
    apply String.eqb_eq in E as ->. destruct F as (rest & -> & _).
    change ("CL" +:+ String "_" rest) with ("CL_" +:+ rest) in H.
    by rewrite startswith_app in H.
  - simplify_eq. rewrite Hl. destruct F as (rest & -> & _).
    change ("CL" +:+ String "_" rest) with ("CL_" +:+ rest).
    by rewrite startswith_app.
Qed.

(** ** The base subtype name *)

Section BaseName.



Lemma startswith_cons (a b : ascii) (p s : string) :
  PyStr.startswith (String a p) (String b s)
  = Ascii.eqb a b && PyStr.startswith p s.
Proof.
  unfold PyStr.startswith.
  change (String.prefix (String a p) (String b s))
    with (if ascii_dec a b then String.prefix p s else false).
  destruct (ascii_dec a b) as [->|Hne].
  - by rewrite Ascii.eqb_refl.
  - apply Ascii.eqb_neq in Hne. by rewrite Hne.
Qed.

Lemma startswith_nil_r (a : ascii) (p : string) :
  PyStr.startswith (String a p) "" = false.
Proof. done. Qed.

Lemma startswith_nil_l (s : string) : PyStr.startswith "" s = true.
Proof. by destruct s. Qed.

(** [_rate] does not overlap itself: an occurrence in [p ++ "_rate" ++ r]
    that starts inside a non-empty [p] lies inside [p]. *)
Lemma rate_no_straddle (c : ascii) (p r : string) :
  PyStr.startswith RATE_SUFFIX (String c p +:+ RATE_SUFFIX +:+ r) = true →
  PyStr.startswith RATE_SUFFIX (String c p) = true.
Proof.
  unfold RATE_SUFFIX.
  destruct p as [|c1 [|c2 [|c3 [|c4 p]]]]; cbn [String.append];
    rewrite ?startswith_cons, ?startswith_nil_r, ?startswith_nil_l;
    repeat match goal with
           | |- context [Ascii.eqb ?a ?b] => is_var b; destruct (Ascii.eqb a b)
           end; simpl; done.
Qed.

Lemma remove_rate_step (p r : string) :
  PyStr.contains RATE_SUFFIX p = false →
  PyStr.remove RATE_SUFFIX (p +:+ RATE_SUFFIX +:+ r)
  = p +:+ PyStr.remove RATE_SUFFIX r.
Proof.
  induction p as [|c p IH].
  { intros _. unfold PyStr.remove.
    change ("" +:+ RATE_SUFFIX +:+ r) with (String "_" ("rate" +:+ r)).
    cbn [PyStr.remove_go].
    change (String "_" ("rate" +:+ r)) with (RATE_SUFFIX +:+ r).
    rewrite startswith_app. reflexivity. }
  cbn [PyStr.contains]. intros [H1 H2]%orb_false_iff.
  unfold PyStr.remove.
  change (String c p +:+ RATE_SUFFIX +:+ r)
    with (String c (p +:+ RATE_SUFFIX +:+ r)).
  cbn [PyStr.remove_go].
  destruct (PyStr.startswith RATE_SUFFIX (String c (p +:+ RATE_SUFFIX +:+ r)))
    eqn:E.
  - apply rate_no_straddle in E. congruence.
  - simpl. f_equal. by apply IH.
Qed.


Lemma endswith_iff (p s : string) :
  PyStr.endswith p s = true ↔ ∃ b, s = b +:+ p.
Proof.
  induction s as [|c s IH]; cbn [PyStr.endswith].
  - rewrite orb_false_r, String.eqb_eq. split.
    + intros <-. by exists "".
    + intros [[|? ?] H]; simpl in H; [done | discriminate].
  - rewrite orb_true_iff, String.eqb_eq, IH. split.
    + intros [<-|[b ->]]; [by exists "" | by exists (String c b)].
    + intros [[|c' b] H]; simpl in H; [by left | right].
      injection H as -> ->. by exists b.
Qed.


End BaseName.

(** ** Arithmetic in int64 *)

Section Int64.

Lemma wrap64_range (z : Z) : in_int64 (wrap64 z).
Proof.
  unfold wrap64, in_int64.
  pose proof (Z.mod_pos_bound (z + 9223372036854775808) 18446744073709551616).
  lia.
Qed.

(** A number in the range of int64 does not wrap. *)
Lemma wrap64_small (z : Z) : in_int64 z → wrap64 z = z.
Proof.
  unfold wrap64, in_int64. intros H. rewrite Z.mod_small by lia. lia.
Qed.

(** A multiple of [2^64] makes no difference. *)
Lemma wrap64_shift (z n : Z) : wrap64 (z + n * 18446744073709551616) = wrap64 z.
Proof.
  unfold wrap64.
  replace (z + n * 18446744073709551616 + 9223372036854775808)
    with (z + 9223372036854775808 + n * 18446744073709551616) by lia.
  by rewrite Z_mod_plus_full.
Qed.

Lemma wrap64_repr (z : Z) : ∃ n, wrap64 z = z + n * 18446744073709551616.
Proof.
  exists (- ((z + 9223372036854775808) / 18446744073709551616)).
  unfold wrap64.
  pose proof (Z.div_mod (z + 9223372036854775808) 18446744073709551616).
  lia.
Qed.

Lemma wrap64_add_l (a b : Z) : wrap64 (wrap64 a + b) = wrap64 (a + b).
Proof.
  destruct (wrap64_repr a) as [n ->].
  replace (a + n * 18446744073709551616 + b)
    with (a + b + n * 18446744073709551616) by lia.
  apply wrap64_shift.
Qed.

Lemma wrap64_add_r (a b : Z) : wrap64 (a + wrap64 b) = wrap64 (a + b).
Proof. rewrite (Z.add_comm a), wrap64_add_l. f_equal. lia. Qed.

Lemma wrap64_sub_l (a b : Z) : wrap64 (wrap64 a - b) = wrap64 (a - b).
Proof. apply (wrap64_add_l a (- b)). Qed.

Lemma wrap64_sub_r (a b : Z) : wrap64 (a - wrap64 b) = wrap64 (a - b).
Proof.
  destruct (wrap64_repr b) as [n ->].
  replace (a - (b + n * 18446744073709551616))
    with (a - b + (- n) * 18446744073709551616) by lia.
  apply wrap64_shift.
Qed.

Lemma wrap64_mul_l (a b : Z) : wrap64 (wrap64 a * b) = wrap64 (a * b).
Proof.
  destruct (wrap64_repr a) as [n ->].
  replace ((a + n * 18446744073709551616) * b)
    with (a * b + (n * b) * 18446744073709551616) by lia.
  apply wrap64_shift.
Qed.

Lemma wrap64_idem (z : Z) : wrap64 (wrap64 z) = wrap64 z.
Proof. apply wrap64_small, wrap64_range. Qed.

(** [wrap64 z] is the int64 number that stands for [z], and the only one. *)
Lemma int64_of_wrap (z : Z) : int64_of z (wrap64 z).
Proof. split; [apply wrap64_range | apply wrap64_repr]. Qed.

Lemma int64_of_unique (z v : Z) : int64_of z v → v = wrap64 z.
Proof.
  intros [Hv [k ->]]. by rewrite <- (wrap64_small _ Hv), wrap64_shift.
Qed.

Lemma int64_of_iff (z v : Z) : int64_of z v ↔ v = wrap64 z.
Proof. split; [apply int64_of_unique | intros ->; apply int64_of_wrap]. Qed.

Lemma int64_of_exact (z v : Z) : in_int64 z → int64_of z v → v = z.
Proof. intros Hz ->%int64_of_unique. by apply wrap64_small. Qed.

(** Two integers that wrap around to the same number are congruent. *)
Lemma congruent64_wrap (a b : Z) : wrap64 a = wrap64 b → congruent64 a b.
Proof.
  destruct (wrap64_repr a) as [n ->], (wrap64_repr b) as [m ->].
  intros E. exists (m - n). lia.
Qed.

(** Adding with a wrap at every step gives the exact sum, wrapped once. *)
Lemma Zsum_exact (l : list Z) : Zsum l = wrap64 (exact_sum l).
Proof.
  induction l as [|x l IH]; [done|].
  cbn [Zsum exact_sum foldr]. fold (Zsum l) (exact_sum l).
  by rewrite IH, wrap64_add_r.
Qed.

Lemma exact_sum_cons (x : Z) (l : list Z) : exact_sum (x :: l) = x + exact_sum l.
Proof. reflexivity. Qed.

Lemma exact_sum_app (l1 l2 : list Z) :
  exact_sum (l1 ++ l2) = exact_sum l1 + exact_sum l2.
Proof. induction l1 as [|x l1 IH]; simpl; rewrite ?exact_sum_cons; lia. Qed.

Lemma exact_sum_nonneg (l : list Z) : Forall (λ x, 0 ≤ x) l → 0 ≤ exact_sum l.
Proof. induction 1; rewrite ?exact_sum_cons; [done | lia]. Qed.

Lemma exact_sum_zero (l : list Z) : Forall (λ x, x = 0) l → exact_sum l = 0.
Proof. induction 1 as [|x l -> _ IH]; [done | by rewrite exact_sum_cons, IH]. Qed.

Lemma exact_sum_fmap_le {A} (f g : A → Z) (l : list A) :
  (∀ x, x ∈ l → f x ≤ g x) → exact_sum (f <$> l) ≤ exact_sum (g <$> l).
Proof.
  induction l as [|x l IH]; intros H; [done|].
  rewrite !fmap_cons, !exact_sum_cons.
  assert (f x ≤ g x) by (apply H, elem_of_cons; by left).
  assert (exact_sum (f <$> l) ≤ exact_sum (g <$> l))
    by (apply IH; intros y Hy; apply H, elem_of_cons; by right).
  lia.
Qed.

Lemma exact_sum_fmap_add {A} (f g : A → Z) (l : list A) :
  exact_sum ((λ x, f x + g x) <$> l) = exact_sum (f <$> l) + exact_sum (g <$> l).
Proof.
  induction l as [|x l IH]; [done|]. rewrite !fmap_cons, !exact_sum_cons, IH. lia.
Qed.

Lemma exact_sum_fmap_sub {A} (f g : A → Z) (l : list A) :
  exact_sum ((λ x, f x - g x) <$> l) = exact_sum (f <$> l) - exact_sum (g <$> l).
Proof.
  induction l as [|x l IH]; [done|]. rewrite !fmap_cons, !exact_sum_cons, IH. lia.
Qed.

(** Wrapping every term does not change the wrapped sum. *)
Lemma exact_sum_fmap_wrap {A} (f : A → Z) (l : list A) :
  wrap64 (exact_sum ((λ x, wrap64 (f x)) <$> l)) = wrap64 (exact_sum (f <$> l)).
Proof.
  induction l as [|x l IH]; [done|].
  rewrite !fmap_cons, !exact_sum_cons.
  by rewrite wrap64_add_l, <- wrap64_add_r, IH, wrap64_add_r.
Qed.

Lemma exact_sum_filter {A} (P : A → Prop) `{!∀ r, Decision (P r)}
    (g : A → Z) (rs : list A) :
  exact_sum (g <$> filter P rs)
  = exact_sum ((λ r, if decide (P r) then g r else 0) <$> rs).
Proof.
  induction rs as [|r rs IH]; [done|].
  rewrite filter_cons, fmap_cons, exact_sum_cons.
  destruct (decide (P r)); rewrite ?fmap_cons, ?exact_sum_cons, IH; lia.
Qed.

Lemma exact_sum_filter_le {A} (f : A → Z) (P Q : A → Prop)
    `{!∀ x, Decision (P x)} `{!∀ x, Decision (Q x)} (l : list A) :
  (∀ x, 0 ≤ f x) → (∀ x, P x → Q x) →
  exact_sum (f <$> filter P l) ≤ exact_sum (f <$> filter Q l).
Proof.
  intros Hf HPQ. rewrite !exact_sum_filter. apply exact_sum_fmap_le.
  intros x _. simpl. pose proof (Hf x).
  destruct (decide (P x)) as [HP|HP]; destruct (decide (Q x)) as [HQ|HQ];
    [lia | by destruct HQ; apply HPQ | lia | lia].
Qed.

Lemma exact_sum_filter_le_all {A} (f : A → Z) (P : A → Prop)
    `{!∀ x, Decision (P x)} (l : list A) :
  (∀ x, 0 ≤ f x) → exact_sum (f <$> filter P l) ≤ exact_sum (f <$> l).
Proof.
  intros Hf. rewrite exact_sum_filter. apply exact_sum_fmap_le.
  intros x _. simpl. pose proof (Hf x). case_decide; lia.
Qed.


End Int64.

(** ** Totals *)

Section Totals.

Lemma resolve_count_of (unit_counts : gmap string Z) (u : string) :
  resolve_count unit_counts u = count_of unit_counts u.
Proof. unfold resolve_count, count_of. by destruct (unit_counts !! u). Qed.

Lemma lookup_column_sums (sel : list string) (detail : list detail_row)
    (c : string) :
  column_sums sel detail !! c
  = if decide (c ∈ sel)
    then Some (Zsum (omap (λ d, d_cells d !! c) detail))
    else None.
Proof.
  unfold column_sums. induction sel as [|x sel IH].
  - by rewrite decide_False by apply not_elem_of_nil.
  - rewrite fmap_cons, list_to_map_cons, lookup_insert, IH.
    destruct (decide (x = c)) as [->|Hne].
    { by rewrite decide_True by (apply elem_of_cons; by left). }
    destruct (decide (c ∈ sel)).
    + by rewrite decide_True by (apply elem_of_cons; by right).
    + by rewrite decide_False by (rewrite elem_of_cons; intros [?|?]; done).
Qed.

Lemma lookup_scale_cells (sel : list string) (count : Z)
    (cs : gmap string Z) (c : string) :
  c ∈ sel → scale_cells sel count cs !! c = (λ v, wrap64 (v * count)) <$> cs !! c.
Proof.
  intros Hin. unfold scale_cells. rewrite lookup_fmap, map_lookup_filter.
  destruct (cs !! c) as [v|]; simpl; [|done].
  by rewrite option_guard_True.
Qed.


(** The sum of a column of a detail table, whatever its [action] column:
    the exact sum of the exact products, reduced to int64. *)
Lemma detail_column_sum (sel : list string) (unit_counts : gmap string Z)
    (f : row → option string) (rs : list row) (c : string) :
  c ∈ sel →
  Zsum (omap (λ d, d_cells d !! c)
          ((λ r, let count := resolve_count unit_counts (unit_type r) in
                 Detail (unit_type r) (f r) count
                        (scale_cells sel count (cells r))) <$> rs))
  = wrap64 (exact_sum ((λ r, cell r c * count_of unit_counts (unit_type r)) <$> rs)).
Proof.
  intros Hin. rewrite Zsum_exact.
  set (mk := λ r : row, _). set (g := λ d : detail_row, _).
  induction rs as [|r rs IH]; [done|].
  rewrite !fmap_cons, exact_sum_cons. cbn [omap list_omap].
  assert (g (mk r)
          = (λ v, wrap64 (v * count_of unit_counts (unit_type r))) <$> cells r !! c)
    as -> by (unfold g, mk; simpl; by rewrite lookup_scale_cells, resolve_count_of).
  rewrite <- wrap64_add_r, <- IH, wrap64_add_r.
  unfold cell. destruct (cells r !! c) as [v|]; simpl.
  - apply wrap64_add_l.
  - f_equal; lia.
Qed.

Lemma select_ok_iff (df : DataFrame) (fixed sel : list string) :
  select_ok df fixed sel = true ↔
  (∀ c, c ∈ sel → c ∈ columns df) ∧ NoDup (fixed ++ sel).
Proof.
  unfold select_ok. rewrite andb_true_iff, bool_decide_eq_true, forallb_forall.
  split; intros [H ?]; (split; [|done]).
  - intros c Hc. apply list_elem_of_In, H in Hc. by apply bool_decide_eq_true in Hc.
  - intros c Hc. apply bool_decide_eq_true, H, list_elem_of_In, Hc.
Qed.

Lemma compute_totals_inv (cons_df cap_df : DataFrame) (act : string)
    (unit_counts : gmap string Z) (sel_rates sel_caps : list string)
    rd cd (tr tc : gmap string Z) :
  compute_totals cons_df cap_df act unit_counts sel_rates sel_caps
  = Some (rd, cd, tr, tc) →
  ((∀ c, c ∈ sel_rates → c ∈ columns cons_df) ∧
   NoDup (["unit_type"; "action"; "count"] ++ sel_rates)) ∧
  ((∀ c, c ∈ sel_caps → c ∈ columns cap_df) ∧
   NoDup (["unit_type"; "count"] ++ sel_caps)) ∧
  (∀ c, tr !! c = if decide (c ∈ sel_rates)
                  then Some (wrap64 (requirement_of cons_df act unit_counts c))
                  else None) ∧
  (∀ c, tc !! c = if decide (c ∈ sel_caps)
                  then Some (wrap64 (capacity_of cap_df unit_counts c))
                  else None).
Proof.
  unfold compute_totals.
  destruct (select_ok cons_df req_fixed sel_rates) eqn:E1; [|done].
  destruct (select_ok cap_df cap_fixed sel_caps) eqn:E2; [|done].
  simpl. intros [= <- <- <- <-].
  split; [by apply (select_ok_iff cons_df req_fixed)|].
  split; [by apply (select_ok_iff cap_df cap_fixed)|].
  split; intros c; rewrite lookup_column_sums; case_decide; try done; f_equal.
  - rewrite (detail_column_sum _ _ (λ r, Some (action r))) by done.
    f_equal. apply (exact_sum_filter (λ r, action r = act)).
  - by rewrite (detail_column_sum _ _ (λ _, None)).
Qed.

Lemma compute_totals_total (cons_df cap_df : DataFrame) (act : string)
    (unit_counts : gmap string Z) (sel_rates sel_caps : list string) :
  (∀ c, c ∈ sel_rates → c ∈ columns cons_df) →
  NoDup (["unit_type"; "action"; "count"] ++ sel_rates) →
  (∀ c, c ∈ sel_caps → c ∈ columns cap_df) →
  NoDup (["unit_type"; "count"] ++ sel_caps) →
  is_Some (compute_totals cons_df cap_df act unit_counts sel_rates sel_caps).
Proof.
  intros H1 N1 H2 N2. unfold compute_totals.
  rewrite (proj2 (select_ok_iff cons_df req_fixed sel_rates)) by done.
  rewrite (proj2 (select_ok_iff cap_df cap_fixed sel_caps)) by done.
  simpl. eauto.
Qed.




End Totals.





(** The totals of the scenario for five units: 20 and 30 make 50. *)
Example totals_linear_numbers :
  ∃ rd cd,
    compute_totals Scenario.cons_df Scenario.cap_df "Assault"
      (pointwise_add Scenario.unit_counts {["InfantryCo" := 3]})
      Scenario.sel_rates Scenario.sel_caps
    = Some (rd, cd, {["CL_III_rate" := 50]},
            <["CL_III_bulk_cap" := 20]> {["CL_III_wheeled_cap" := 15]}).
Proof. eexists _, _. reflexivity. Qed.


(** ** The group summary *)

Section GroupSummary.

Implicit Types (tr tc : gmap string Z) (sr sc : list string).

(** The sum over labels is the exact sum of the values, wrapped. *)
Lemma sum_over_wrap (s : gmap string Z) (labels : list string) (v : Z) :
  sum_over s labels v ↔
  ∃ vs, Forall2 (λ c x, s !! c = Some x) labels vs ∧ v = wrap64 (exact_sum vs).
Proof. unfold sum_over. by setoid_rewrite int64_of_iff. Qed.

Lemma series_sum_iff (s : gmap string Z) (labels : list string) (v : Z) :
  series_sum s labels = Some v ↔ sum_over s labels v.
Proof.
  rewrite sum_over_wrap. unfold series_sum. rewrite fmap_Some.
  setoid_rewrite mapM_Some. setoid_rewrite Zsum_exact. naive_solver.
Qed.

Lemma sum_over_nil (s : gmap string Z) (v : Z) : sum_over s [] v ↔ v = 0.
Proof.
  rewrite sum_over_wrap. split.
  - by intros (vs & ->%Forall2_nil_inv_l & ->).
  - intros ->. exists []. by split.
Qed.

Lemma sum_or_zero_iff (s : gmap string Z) (labels : list string) (v : Z) :
  sum_or_zero s labels = Some v ↔ sum_over s labels v.
Proof.
  destruct labels as [|c l]; [|apply series_sum_iff].
  rewrite sum_over_nil. simpl. split; congruence.
Qed.

Lemma sum_or_none_inv (s : gmap string Z) (keys : list string) (o : option Z) :
  sum_or_none s keys = Some o →
  match o with
  | None => keys = []
  | Some v => keys ≠ [] ∧ sum_over s keys v
  end.
Proof.
  destruct keys as [|c l]; cbn [sum_or_none].
  - by intros [= <-].
  - intros (v & Hv & ->)%fmap_Some. split; [done|]. by apply series_sum_iff.
Qed.

Lemma sum_over_unique (s : gmap string Z) (labels : list string) (v w : Z) :
  sum_over s labels v → sum_over s labels w → v = w.
Proof. intros H1%series_sum_iff H2%series_sum_iff. congruence. Qed.

Lemma sum_over_total (s : gmap string Z) (labels : list string) :
  (∀ c, c ∈ labels → is_Some (s !! c)) → ∃ v, sum_over s labels v.
Proof.
  intros H. assert (is_Some (mapM (λ c, s !! c) labels)) as [vs Hvs].
  { apply mapM_is_Some, Forall_forall. intros c Hc. by apply H. }
  exists (wrap64 (exact_sum vs)), vs.
  split; [by apply mapM_Some | apply int64_of_wrap].
Qed.

Lemma sum_over_range (s : gmap string Z) (labels : list string) (v : Z) :
  sum_over s labels v → in_int64 v.
Proof. by intros (vs & _ & [? _]). Qed.

Lemma Forall2_elem_of_l {A B} (P : A → B → Prop) (l : list A) (k : list B)
    (x : A) :
  Forall2 P l k → x ∈ l → ∃ y, y ∈ k ∧ P x y.
Proof.
  induction 1 as [|a b l k Hab _ IH]; [by intros ?%elem_of_nil|].
  intros [->|Hin]%elem_of_cons.
  - exists b. split; [apply elem_of_cons; by left | done].
  - destruct (IH Hin) as (y & ? & ?). exists y.
    split; [apply elem_of_cons; by right | done].
Qed.

Lemma sum_over_is_Some (s : gmap string Z) (labels : list string) (v : Z)
    (c : string) :
  sum_over s labels v → c ∈ labels → is_Some (s !! c).
Proof.
  intros (vs & HF & _) Hin.
  destruct (Forall2_elem_of_l _ _ _ _ HF Hin) as (x & _ & Hx). by eexists.
Qed.

(** The sum over labels, with the values read off the series. *)
Lemma sum_over_default (s : gmap string Z) (labels : list string) (v : Z) :
  sum_over s labels v →
  v = wrap64 (exact_sum ((λ c, default 0 (s !! c)) <$> labels)).
Proof.
  intros (vs & HF & ->)%sum_over_wrap. f_equal.
  induction HF as [|c x l vs Hx _ IH]; [done|].
  by rewrite fmap_cons, !exact_sum_cons, Hx, IH.
Qed.

Lemma sum_over_intro (s : gmap string Z) (labels : list string) :
  (∀ c, c ∈ labels → is_Some (s !! c)) →
  sum_over s labels (wrap64 (exact_sum ((λ c, default 0 (s !! c)) <$> labels))).
Proof.
  intros H. destruct (sum_over_total s labels H) as [v Hv].
  by rewrite <- (sum_over_default _ _ _ Hv).
Qed.

(** A sum of non-negative values that stays below [2^63] is exact. *)
Lemma sum_over_exact (s : gmap string Z) (labels : list string) (v : Z) :
  (∀ c x, s !! c = Some x → 0 ≤ x) →
  exact_sum ((λ c, default 0 (s !! c)) <$> labels) < 9223372036854775808 →
  sum_over s labels v →
  v = exact_sum ((λ c, default 0 (s !! c)) <$> labels) ∧ 0 ≤ v.
Proof.
  intros Hs Hb ->%sum_over_default.
  assert (0 ≤ exact_sum ((λ c, default 0 (s !! c)) <$> labels)) as H0.
  { apply exact_sum_nonneg, Forall_fmap, Forall_forall. intros c _. simpl.
    destruct (s !! c) eqn:E; simpl; [by eapply Hs | done]. }
  rewrite wrap64_small by (unfold in_int64; lia). done.
Qed.

Lemma default_nonneg (s : gmap string Z) (c : string) :
  (∀ c x, s !! c = Some x → 0 ≤ x) → 0 ≤ default 0 (s !! c).
Proof. intros Hs. destruct (s !! c) eqn:E; simpl; [by eapply Hs | done]. Qed.

(** The deficit loop lists the base names of the rate columns whose own
    requirement exceeds the summed totals of the matching capacity columns. *)
Lemma deficit_loop_spec tr tc sc (rates deficit : list string) :
  deficit_loop tr tc sc rates = Some deficit →
  ∀ b, b ∈ deficit ↔
       ∃ rate r s, rate ∈ rates ∧ base_name rate = b ∧
                   tr !! rate = Some r ∧
                   sum_over tc (cap_matches sc (base_name rate)) s ∧ s < r.
Proof.
  revert deficit. induction rates as [|rate rest IH]; intros deficit; simpl.
  - intros [= <-] b. split; [by intros ?%elem_of_nil|].
    by intros (? & ? & ? & ?%elem_of_nil & _).
  - destruct (tr !! rate) as [r|] eqn:Er; [|done]. simpl.
    destruct (series_sum tc (cap_matches sc (base_name rate))) as [s|] eqn:Es;
      [|done]. simpl.
    destruct (deficit_loop tr tc sc rest) as [tl|]; [|done]. simpl.
    intros [= <-] b. specialize (IH tl eq_refl b).
    apply series_sum_iff in Es.
    destruct (Z.ltb_spec s r) as [Hlt|Hge].
    + rewrite elem_of_cons, IH. split.
      * intros [->|(rate' & r' & s' & Hin & H)].
        -- exists rate, r, s. rewrite elem_of_cons. naive_solver.
        -- exists rate', r', s'. rewrite elem_of_cons. naive_solver.
      * intros (rate' & r' & s' & [->|Hin]%elem_of_cons & H);
          [left; naive_solver | right; naive_solver].
    + rewrite IH. split.
      * intros (rate' & r' & s' & Hin & H).
        exists rate', r', s'. rewrite elem_of_cons. naive_solver.
      * intros (rate' & r' & s' & [->|Hin]%elem_of_cons & Hb & Hr & Hs & Hlt);
          [|naive_solver].
        exfalso. simplify_eq. pose proof (sum_over_unique _ _ _ _ Es Hs). lia.
Qed.

Lemma deficit_loop_total tr tc sc (rates : list string) :
  (∀ c, c ∈ rates → is_Some (tr !! c)) →
  (∀ c, c ∈ sc → is_Some (tc !! c)) →
  is_Some (deficit_loop tr tc sc rates).
Proof.
  intros Hr Hc. induction rates as [|rate rest IH]; simpl; [eauto|].
  destruct (Hr rate) as [r ->]; [apply elem_of_cons; by left|]. simpl.
  destruct (sum_over_total tc (cap_matches sc (base_name rate))) as [s Hs].
  { intros c [_ Hin]%list_elem_of_filter. by apply Hc. }
  apply series_sum_iff in Hs. rewrite Hs. simpl.
  destruct IH as [tl ->]; [|simpl; eauto].
  intros c Hin. apply Hr, elem_of_cons. by right.
Qed.

(** The loop goes through the rate columns in their order and takes the
    base name of each one that is short. *)
Lemma deficit_loop_selects tr tc sc (rates deficit : list string) :
  deficit_loop tr tc sc rates = Some deficit →
  ∃ chosen, selects (short tr tc sc) rates chosen ∧
            deficit = base_name <$> chosen.
Proof.
  revert deficit. induction rates as [|rate rest IH]; intros deficit.
  - intros [= <-]. exists []. split; [constructor | done].
  - cbn [deficit_loop].
    intros (r & Hr & (m & Hm & (tl & Htl & [= <-])%bind_Some)%bind_Some)%bind_Some.
    destruct (IH tl Htl) as (chosen & Hsel & ->).
    apply series_sum_iff in Hm.
    destruct (Z.ltb_spec m r) as [Hlt|Hge].
    + exists (rate :: chosen). split; [|done].
      constructor; [|done]. by exists r, m.
    + exists chosen. split; [|done].
      apply selects_skip; [|done]. intros (r' & m' & Hr' & Hm' & Hlt).
      simplify_eq. pose proof (sum_over_unique _ _ _ _ Hm Hm'). lia.
Qed.

Lemma selects_unique {A} (P : A → Prop) (l k1 k2 : list A) :
  selects P l k1 → selects P l k2 → k1 = k2.
Proof.
  intros H1. revert k2. induction H1 as [|x l k1 Hx _ IH|x l k1 Hx _ IH];
    intros k2 H2; inversion H2; subst; try done.
  - f_equal. by apply IH.
  - by apply IH.
Qed.

Lemma summary_row_fields (g : string) (req cap sur : Z)
    (deficit : list string) (bulk wheel : option Z) (fb fw : Z → Z) :
  let row := summary_row g req cap sur deficit
               bulk (fb <$> bulk) wheel (fw <$> wheel) in
  row !! "Group" = Some (VStr g) ∧
  row !! "Requirement" = Some (VNum req) ∧
  row !! "Capacity" = Some (VNum cap) ∧
  row !! "Surplus/(Deficit)" = Some (VNum sur) ∧
  row !! "Deficit Subtypes" = Some (VStr (deficit_text deficit)) ∧
  row !! "Bulk Cap" = VNum <$> bulk ∧
  row !! "Bulk Surplus" = (λ b, VNum (fb b)) <$> bulk ∧
  row !! "Wheeled Cap" = VNum <$> wheel ∧
  row !! "Wheeled Surplus" = (λ w, VNum (fw w)) <$> wheel.
Proof. destruct bulk, wheel; repeat split; reflexivity. Qed.

Lemma group_row_inv tr tc sr sc (g : string) (row : gmap string value) :
  group_row tr tc sr sc g = Some row →
  ∃ req cap bulk wheel deficit,
    sum_over tr (filter (λ c, group_prefix c = g) sr) req ∧
    sum_over tc (filter (λ c, group_prefix c = g) sc) cap ∧
    sum_or_none tc (filter (λ c, PyStr.contains "_bulk_cap" c = true)
                      (filter (λ c, group_prefix c = g) sc)) = Some bulk ∧
    sum_or_none tc (filter (λ c, PyStr.contains "_wheeled_cap" c = true)
                      (filter (λ c, group_prefix c = g) sc)) = Some wheel ∧
    (if wrap64 (cap - req) <? 0
     then deficit_loop tr tc sc (filter (λ c, group_prefix c = g) sr)
          = Some deficit
     else deficit = []) ∧
    row = summary_row g req cap (wrap64 (cap - req)) deficit
            bulk ((λ b, wrap64 (b - req)) <$> bulk)
            wheel ((λ w, wrap64 (w - req)) <$> wheel).
Proof.
  unfold group_row, group_members.
  intros (req & E1 & (cap & E2 & (bulk & E3 & (wheel & E4 &
           (deficit & E5 & [= <-])%bind_Some)%bind_Some)%bind_Some)%bind_Some)%bind_Some.
  exists req, cap, bulk, wheel, deficit.
  apply sum_or_zero_iff in E1, E2. repeat (split; [done|]). split; [|done].
  destruct (wrap64 (cap - req) <? 0); [done | congruence].
Qed.

Lemma group_row_total tr tc sr sc (g : string) :
  (∀ c, c ∈ sr → is_Some (tr !! c)) →
  (∀ c, c ∈ sc → is_Some (tc !! c)) →
  is_Some (group_row tr tc sr sc g).
Proof.
  intros Hr Hc.
  assert (∀ l, (∀ c, c ∈ l → c ∈ sc) → is_Some (series_sum tc l)) as Hsum.
  { intros l Hl. destruct (sum_over_total tc l) as [v Hv]; [naive_solver|].
    exists v. by apply series_sum_iff. }
  assert (∀ l, (∀ c, c ∈ l → c ∈ sc) → is_Some (sum_or_zero tc l)) as Hz.
  { intros [|c l] Hl; [by eexists | by apply Hsum]. }
  assert (∀ l, (∀ c, c ∈ l → c ∈ sc) → is_Some (sum_or_none tc l)) as Hn.
  { intros [|c l] Hl; [by eexists|]. cbn [sum_or_none].
    destruct (Hsum (c :: l) Hl) as [v ->]. by eexists. }
  unfold group_row.
  destruct (sum_over_total tr (group_members sr g)) as [req Hreq].
  { intros c [_ Hin]%list_elem_of_filter. by apply Hr. }
  apply sum_or_zero_iff in Hreq. rewrite Hreq. cbn [mbind option_bind].
  destruct (Hz (group_members sc g)) as [cap ->].
  { by intros c [_ Hin]%list_elem_of_filter. }
  cbn [mbind option_bind].
  destruct (Hn (filter (λ c, PyStr.contains "_bulk_cap" c = true)
                  (group_members sc g))) as [bulk ->].
  { by intros c [_ [_ Hin]%list_elem_of_filter]%list_elem_of_filter. }
  cbn [mbind option_bind].
  destruct (Hn (filter (λ c, PyStr.contains "_wheeled_cap" c = true)
                  (group_members sc g))) as [wheel ->].
  { by intros c [_ [_ Hin]%list_elem_of_filter]%list_elem_of_filter. }
  cbn [mbind option_bind].
  destruct (wrap64 (cap - req) <? 0).
  - destruct (deficit_loop_total tr tc sc (group_members sr g)) as [d ->];
      [|done|by eexists].
    intros c [_ Hin]%list_elem_of_filter. by apply Hr.
  - cbn [mbind option_bind]. by eexists.
Qed.

(** The groups are the prefixes of the selected columns. *)
Lemma elem_of_group_names sr sc (g : string) :
  g ∈ group_names sr sc ↔ ∃ c, c ∈ sr ++ sc ∧ group_prefix c = g.
Proof.
  unfold group_names. rewrite merge_sort_Permutation, elem_of_remove_dups.
  rewrite list_elem_of_fmap. naive_solver.
Qed.

(** They come sorted, each once. *)
Lemma group_names_sorted sr sc :
  StronglySorted String.le (group_names sr sc) ∧ NoDup (group_names sr sc).
Proof.
  unfold group_names. split.
  - apply StronglySorted_merge_sort; apply _.
  - rewrite merge_sort_Permutation. apply NoDup_remove_dups.
Qed.

(** The summary has one row per group, built by the loop body. *)
Lemma build_group_summary_rows tr tc sr sc (summary : list (gmap string value)) :
  build_group_summary tr tc sr sc = Some summary →
  Forall2 (λ g row, group_row tr tc sr sc g = Some row)
          (group_names sr sc) summary.
Proof.
  unfold build_group_summary. intros (rs & H & E)%bind_Some.
  destruct rs; [done|]. injection E as <-. by apply mapM_Some_1.
Qed.

Lemma build_group_summary_row tr tc sr sc (summary : list (gmap string value))
    (row : gmap string value) :
  build_group_summary tr tc sr sc = Some summary → row ∈ summary →
  ∃ g, g ∈ group_names sr sc ∧ group_row tr tc sr sc g = Some row.
Proof.
  intros HF%build_group_summary_rows Hin.
  induction HF as [|g r gs rs Hg _ IH]; [by apply elem_of_nil in Hin|].
  apply elem_of_cons in Hin as [->|Hin].
  - exists g. split; [apply elem_of_cons; by left | done].
  - destruct (IH Hin) as (g' & ? & ?). exists g'.
    split; [apply elem_of_cons; by right | done].
Qed.

(** With a column selected and the totals covering the selection, the
    summary is built. *)
Lemma build_group_summary_total tr tc sr sc :
  sr ++ sc ≠ [] →
  (∀ c, c ∈ sr → is_Some (tr !! c)) →
  (∀ c, c ∈ sc → is_Some (tc !! c)) →
  is_Some (build_group_summary tr tc sr sc).
Proof.
  intros Hne Hr Hc. unfold build_group_summary.
  destruct (mapM (group_row tr tc sr sc) (group_names sr sc)) as [rs|] eqn:E.
  - cbn [mbind option_bind]. destruct rs as [|r rs]; [|by eexists].
    exfalso. apply mapM_Some_1, Forall2_nil_inv_r in E.
    destruct (sr ++ sc) as [|c l] eqn:El; [done|].
    assert (group_prefix c ∈ group_names sr sc) as Hin.
    { apply elem_of_group_names. exists c. split; [|done].
      rewrite El. apply elem_of_cons. by left. }
    rewrite E in Hin. by apply elem_of_nil in Hin.
  - exfalso. apply mapM_None_1, Exists_exists in E as (g & _ & Hg).
    destruct (group_row_total tr tc sr sc g Hr Hc) as [? ?]. congruence.
Qed.

(** Without any column selected there is no row, and no summary. *)
Lemma build_group_summary_empty tr tc :
  build_group_summary tr tc [] [] = None.
Proof. reflexivity. Qed.

Lemma filter_nonempty_iff {A} (P : A → Prop) `{!∀ x, Decision (P x)} (l : list A) :
  filter P l ≠ [] ↔ ∃ x, x ∈ l ∧ P x.
Proof.
  split.
  - destruct (filter P l) as [|x k] eqn:E; [done|]. intros _. exists x.
    assert (x ∈ filter P l) as Hx by (rewrite E; apply elem_of_cons; by left).
    apply list_elem_of_filter in Hx. tauto.
  - intros (x & Hin & HP) E.
    assert (x ∈ filter P l) as Hx by (apply list_elem_of_filter; tauto).
    rewrite E in Hx. by apply elem_of_nil in Hx.
Qed.

Lemma filter_empty_intro {A} (P : A → Prop) `{!∀ x, Decision (P x)} (l : list A) :
  (∀ x, x ∈ l → ¬ P x) → filter P l = [].
Proof.
  intros Hall. destruct (filter P l) as [|x k] eqn:E; [done|]. exfalso.
  assert (filter P l ≠ []) as Hne by (by rewrite E).
  apply filter_nonempty_iff in Hne as (y & Hy & HP). by apply (Hall y).
Qed.

End GroupSummary.

(** C4. In every row of the group summary, Requirement is the sum of the
    total requirement over the selected rate columns whose group is the
    row's (0 when there is none), Capacity the sum of the total capacity
    over the selected capacity columns of that group (0 when there is none),
    and Surplus/(Deficit) is Capacity minus Requirement: the int64 number
    that stands for the difference of the two fields, which is their exact
    difference whenever that is in the range of int64. *)
Theorem surplus_consistency (tr tc : gmap string Z) (sr sc : list string)
    (summary : list (gmap string value)) (row : gmap string value) :
  build_group_summary tr tc sr sc = Some summary →
  row ∈ summary →
  ∃ g req cap surplus,
    row !! "Group" = Some (VStr g) ∧
    sum_over tr (filter (λ c, group_prefix c = g) sr) req ∧
    sum_over tc (filter (λ c, group_prefix c = g) sc) cap ∧
    ((∀ c, c ∈ sr → group_prefix c ≠ g) → req = 0) ∧
    ((∀ c, c ∈ sc → group_prefix c ≠ g) → cap = 0) ∧
    row !! "Requirement" = Some (VNum req) ∧
    row !! "Capacity" = Some (VNum cap) ∧
    row !! "Surplus/(Deficit)" = Some (VNum surplus) ∧
    int64_of (cap - req) surplus ∧
    (in_int64 (cap - req) → surplus = cap - req).
Proof.
  intros Hs Hin.
  destruct (build_group_summary_row _ _ _ _ _ _ Hs Hin) as (g & _ & Hg).
  apply group_row_inv in Hg
    as (req & cap & bulk & wheel & deficit & Hreq & Hcap & _ & _ & _ & ->).
  exists g, req, cap, (wrap64 (cap - req)).
  destruct (summary_row_fields g req cap (wrap64 (cap - req)) deficit bulk wheel
              (λ b, wrap64 (b - req)) (λ w, wrap64 (w - req)))
    as (F1 & F2 & F3 & F4 & _).
  repeat (split; [done|]).
  split; [|split; [|repeat (split; [done|]); split]].
  - intros E. rewrite filter_empty_intro in Hreq by done.
    by apply sum_over_nil in Hreq.
  - intros E. rewrite filter_empty_intro in Hcap by done.
    by apply sum_over_nil in Hcap.
  - apply int64_of_wrap.
  - apply wrap64_small.
Qed.

Lemma surplus_consistency_witness :
  build_group_summary TwoGroups.total_req TwoGroups.total_cap
    TwoGroups.sel_rates TwoGroups.sel_caps
  = Some [TwoGroups.row_CL_III; TwoGroups.row_Javelin] ∧
  (TwoGroups.row_CL_III !! "Requirement" = Some (VNum 20) ∧
   TwoGroups.row_CL_III !! "Capacity" = Some (VNum 14) ∧
   TwoGroups.row_CL_III !! "Surplus/(Deficit)" = Some (VNum (-6))) ∧
  (TwoGroups.row_Javelin !! "Requirement" = Some (VNum 7) ∧
   TwoGroups.row_Javelin !! "Capacity" = Some (VNum 9) ∧
   TwoGroups.row_Javelin !! "Surplus/(Deficit)" = Some (VNum 2)) ∧
  ∃ g req cap surplus,
    TwoGroups.row_Javelin !! "Group" = Some (VStr g) ∧
    sum_over TwoGroups.total_req
      (filter (λ c, group_prefix c = g) TwoGroups.sel_rates) req ∧
    sum_over TwoGroups.total_cap
      (filter (λ c, group_prefix c = g) TwoGroups.sel_caps) cap ∧
    ((∀ c, c ∈ TwoGroups.sel_rates → group_prefix c ≠ g) → req = 0) ∧
    ((∀ c, c ∈ TwoGroups.sel_caps → group_prefix c ≠ g) → cap = 0) ∧
    TwoGroups.row_Javelin !! "Requirement" = Some (VNum req) ∧
    TwoGroups.row_Javelin !! "Capacity" = Some (VNum cap) ∧
    TwoGroups.row_Javelin !! "Surplus/(Deficit)" = Some (VNum surplus) ∧
    int64_of (cap - req) surplus ∧
    (in_int64 (cap - req) → surplus = cap - req).
Proof.
  split; [reflexivity|]. split; [repeat split; reflexivity|].
  split; [repeat split; reflexivity|].
  apply (surplus_consistency TwoGroups.total_req TwoGroups.total_cap
           TwoGroups.sel_rates TwoGroups.sel_caps
           [TwoGroups.row_CL_III; TwoGroups.row_Javelin]).
  - reflexivity.
  - apply elem_of_cons. right. apply elem_of_cons. by left.
Defined.

Lemma split_fields_intro (tc : gmap string Z) (sc : list string) (g : string)
    (req : Z) (row : gmap string value) (marker kcap ksurp : string)
    (o : option Z) :
  sum_or_none tc (filter (λ c, PyStr.contains marker c = true)
                    (filter (λ c, group_prefix c = g) sc)) = Some o →
  row !! kcap = VNum <$> o →
  row !! ksurp = (λ b, VNum (wrap64 (b - req))) <$> o →
  split_fields tc sc g req row marker kcap ksurp.
Proof.
  intros Ho%sum_or_none_inv Hc Hs. unfold split_fields. rewrite Hc, Hs.
  destruct o as [b|]; simpl.
  - destruct Ho as [Hne Hb]. split; [|split].
    + split; [intros _ | by eexists].
      apply filter_nonempty_iff in Hne as (c & [Hg Hin]%list_elem_of_filter & Hm).
      by exists c.
    + split; by eexists.
    + intros v [= <-]. exists b, (wrap64 (b - req)).
      repeat (split; [done|]). apply int64_of_wrap.
  - split; [|split].
    + split; [by intros [? ?] |]. intros (c & Hin & Hg & Hm). exfalso.
      assert (filter (λ c, PyStr.contains marker c = true)
                (filter (λ c, group_prefix c = g) sc) ≠ []) as Hne; [|done].
      apply filter_nonempty_iff. exists c. split; [|done].
      apply list_elem_of_filter. by split.
    + split; by intros [? ?].
    + by intros v.
Qed.

(** C6. In every row of the group summary, the fields Bulk Cap and Bulk
    Surplus are present exactly when the group has a capacity column whose
    name contains [_bulk_cap]; when present, Bulk Cap is the sum of the total
    capacity over those columns and Bulk Surplus is that sum minus the group's
    requirement; a group with no such column has neither field.  The same
    holds for Wheeled Cap and Wheeled Surplus with [_wheeled_cap]. *)
Theorem bulk_wheeled_fields (tr tc : gmap string Z) (sr sc : list string)
    (summary : list (gmap string value)) (row : gmap string value) :
  build_group_summary tr tc sr sc = Some summary →
  row ∈ summary →
  ∃ g req,
    row !! "Group" = Some (VStr g) ∧
    row !! "Requirement" = Some (VNum req) ∧
    sum_over tr (filter (λ c, group_prefix c = g) sr) req ∧
    split_fields tc sc g req row "_bulk_cap" "Bulk Cap" "Bulk Surplus" ∧
    split_fields tc sc g req row "_wheeled_cap" "Wheeled Cap" "Wheeled Surplus".
Proof.
  intros Hs Hin.
  destruct (build_group_summary_row _ _ _ _ _ _ Hs Hin) as (g & _ & Hg).
  apply group_row_inv in Hg
    as (req & cap & bulk & wheel & deficit & Hreq & _ & Hb & Hw & _ & ->).
  exists g, req.
  destruct (summary_row_fields g req cap (wrap64 (cap - req)) deficit bulk wheel
              (λ b, wrap64 (b - req)) (λ w, wrap64 (w - req)))
    as (F1 & F2 & _ & _ & _ & F6 & F7 & F8 & F9).
  repeat (split; [done|]). split; eapply split_fields_intro; eauto.
Qed.

Lemma bulk_wheeled_fields_witness :
  ∃ g req,
    Scenario.row !! "Group" = Some (VStr g) ∧
    Scenario.row !! "Requirement" = Some (VNum req) ∧
    sum_over Scenario.total_req
      (filter (λ c, group_prefix c = g) Scenario.sel_rates) req ∧
    split_fields Scenario.total_cap Scenario.sel_caps g req Scenario.row
      "_bulk_cap" "Bulk Cap" "Bulk Surplus" ∧
    split_fields Scenario.total_cap Scenario.sel_caps g req Scenario.row
      "_wheeled_cap" "Wheeled Cap" "Wheeled Surplus".
Proof.
  apply (bulk_wheeled_fields Scenario.total_req Scenario.total_cap
           Scenario.sel_rates Scenario.sel_caps [Scenario.row]).
  - reflexivity.
  - apply elem_of_cons. by left.
Defined.

(** A group without a bulk capacity column: the row has no Bulk Cap field. *)
Example no_bulk_field :
  build_group_summary {["Javelin_rate" := 7]} {["Javelin_cap" := 9]}
    ["Javelin_rate"] ["Javelin_cap"]
  = Some [summary_row "Javelin" 7 9 2 [] None None None None] ∧
  summary_row "Javelin" 7 9 2 [] None None None None !! "Bulk Cap" = None.
Proof. split; reflexivity. Qed.

(** C1 (as amended). In every row of the group summary, Deficit Subtypes
    renders a list that holds a name exactly when the group's surplus is
    negative and the name is the base name of one of the group's rate columns
    whose own total requirement exceeds the summed totals of the selected
    capacity columns whose name starts with that base name, the base name
    being the rate column's name with every [_rate] removed; when the surplus
    is not negative the list is empty and the field is the placeholder. *)
Theorem deficit_subtypes_spec (tr tc : gmap string Z) (sr sc : list string)
    (summary : list (gmap string value)) (row : gmap string value) :
  build_group_summary tr tc sr sc = Some summary →
  row ∈ summary →
  ∃ g req cap surplus deficit,
    row !! "Group" = Some (VStr g) ∧
    sum_over tr (filter (λ c, group_prefix c = g) sr) req ∧
    sum_over tc (filter (λ c, group_prefix c = g) sc) cap ∧
    int64_of (cap - req) surplus ∧
    row !! "Surplus/(Deficit)" = Some (VNum surplus) ∧
    row !! "Deficit Subtypes" = Some (VStr (deficit_text deficit)) ∧
    (∀ b, b ∈ deficit ↔
          surplus < 0 ∧
          ∃ rate r s, rate ∈ sr ∧ group_prefix rate = g ∧
                      base_name rate = b ∧
                      tr !! rate = Some r ∧
                      sum_over tc
                        (filter (λ c, PyStr.startswith b c = true) sc) s ∧
                      s < r) ∧
    (0 ≤ surplus →
     deficit = [] ∧ row !! "Deficit Subtypes" = Some (VStr "-")).
Proof.
  intros Hs Hin.
  destruct (build_group_summary_row _ _ _ _ _ _ Hs Hin) as (g & _ & Hg).
  apply group_row_inv in Hg
    as (req & cap & bulk & wheel & deficit & Hreq & Hcap & _ & _ & Hd & ->).
  exists g, req, cap, (wrap64 (cap - req)), deficit.
  destruct (summary_row_fields g req cap (wrap64 (cap - req)) deficit bulk wheel
              (λ b, wrap64 (b - req)) (λ w, wrap64 (w - req)))
    as (F1 & _ & _ & F4 & F5 & _).
  repeat (split; [done|]). split; [apply int64_of_wrap|].
  repeat (split; [done|]).
  destruct (Z.ltb_spec (wrap64 (cap - req)) 0) as [Hlt|Hge].
  - split; [|lia]. intros b.
    rewrite (deficit_loop_spec _ _ _ _ _ Hd b). split.
    + intros (rate & r & s & [Hg Hr]%list_elem_of_filter & <- & ? & ? & ?).
      split; [done|]. by exists rate, r, s.
    + intros (_ & rate & r & s & Hr & Hg & <- & ? & ? & ?).
      exists rate, r, s. split; [|done]. apply list_elem_of_filter. by split.
  - subst deficit. split.
    + intros b. split; [by intros ?%elem_of_nil | lia].
    + by intros _.
Qed.

Lemma deficit_subtypes_spec_witness :
  ∃ g req cap surplus deficit,
    Scenario.row !! "Group" = Some (VStr g) ∧
    sum_over Scenario.total_req
      (filter (λ c, group_prefix c = g) Scenario.sel_rates) req ∧
    sum_over Scenario.total_cap
      (filter (λ c, group_prefix c = g) Scenario.sel_caps) cap ∧
    int64_of (cap - req) surplus ∧
    Scenario.row !! "Surplus/(Deficit)" = Some (VNum surplus) ∧
    Scenario.row !! "Deficit Subtypes" = Some (VStr (deficit_text deficit)) ∧
    (∀ b, b ∈ deficit ↔
          surplus < 0 ∧
          ∃ rate r s, rate ∈ Scenario.sel_rates ∧ group_prefix rate = g ∧
                      base_name rate = b ∧
                      Scenario.total_req !! rate = Some r ∧
                      sum_over Scenario.total_cap
                        (filter (λ c, PyStr.startswith b c = true)
                                Scenario.sel_caps) s ∧
                      s < r) ∧
    (0 ≤ surplus →
     deficit = [] ∧ Scenario.row !! "Deficit Subtypes" = Some (VStr "-")).
Proof.
  apply (deficit_subtypes_spec Scenario.total_req Scenario.total_cap
           Scenario.sel_rates Scenario.sel_caps [Scenario.row]).
  - reflexivity.
  - apply elem_of_cons. by left.
Defined.

(** C1 as stated fails.  The rate column [X_rate_y_rate] has the requirement
    5 and the capacity column [X_y_cap] the capacity 3.  The code removes
    both [_rate] and lists the base name [X_y]; with the suffix stripped the
    base name is [X_rate_y], which the row does not list. *)
Lemma deficit_not_as_stated :
  build_group_summary {["X_rate_y_rate" := 5]} {["X_y_cap" := 3]}
    ["X_rate_y_rate"] ["X_y_cap"]
  = Some [summary_row "X" 5 3 (-2) ["X_y"] None None None None] ∧
  ¬ deficit_as_stated {["X_rate_y_rate" := 5]} {["X_y_cap" := 3]}
      ["X_rate_y_rate"] ["X_y_cap"] "X" (-2) ["X_y"].
Proof.
  split; [reflexivity|].
  intros H. destruct (H "X_y") as [H1 _].
  destruct H1 as (_ & rate & r & s & Hin & _ & Hb & _).
  { apply elem_of_cons. by left. }
  apply elem_of_cons in Hin as [->|Hin]; [discriminate Hb|].
  by apply elem_of_nil in Hin.
Qed.

(** The stated rule also differs from the code in how a capacity column is
    matched: the code tests the capacity column's full name.  The requirement
    5 of [A_c_rate] is met by the capacity 5 of [A_cap], whose name starts
    with [A_c] although its base name [A] does not; the code lists [A_x]
    only. *)
Lemma deficit_matches_full_name :
  build_group_summary
    (<["A_c_rate" := 5]> {["A_x_rate" := 3]}) {["A_cap" := 5]}
    ["A_c_rate"; "A_x_rate"] ["A_cap"]
  = Some [summary_row "A" 8 5 (-3) ["A_x"] None None None None] ∧
  ¬ deficit_as_stated
      (<["A_c_rate" := 5]> {["A_x_rate" := 3]}) {["A_cap" := 5]}
      ["A_c_rate"; "A_x_rate"] ["A_cap"] "A" (-3) ["A_x"].
Proof.
  split; [reflexivity|].
  intros H. destruct (H "A_c") as [_ H2].
  assert ("A_c" ∈ ["A_x"]) as Hin.
  { apply H2. split; [lia|]. exists "A_c_rate", 5, 0.
    split; [apply elem_of_cons; by left|].
    repeat (split; [reflexivity|]). split; [|lia].
    by apply sum_over_nil. }
  apply elem_of_cons in Hin as [?|Hin]; [discriminate|].
  by apply elem_of_nil in Hin.
Qed.

(** ** Signs *)

Section Signs.







(** The sum over some of the labels, for non-negative values whose sum over
    all the labels is below [2^63]: exact, non-negative, and at most the sum
    over all. *)
Lemma sum_over_part (s : gmap string Z) (P : string → Prop)
    `{!∀ c, Decision (P c)} (all : list string) (v : Z) :
  (∀ c x, s !! c = Some x → 0 ≤ x) →
  exact_sum ((λ c, default 0 (s !! c)) <$> all) < 9223372036854775808 →
  sum_over s (filter P all) v →
  v = exact_sum ((λ c, default 0 (s !! c)) <$> filter P all) ∧ 0 ≤ v ∧
  v ≤ exact_sum ((λ c, default 0 (s !! c)) <$> all).
Proof.
  intros Hs Hb Hv.
  pose proof (exact_sum_filter_le_all (λ c, default 0 (s !! c)) P all
                (λ c, default_nonneg s c Hs)) as Hle.
  destruct (sum_over_exact s (filter P all) v Hs) as [-> H0]; [lia | done |].
  done.
Qed.

End Signs.


(** The whole pipeline returns: with a column selected, the selected
    columns in the tables, none selected twice and none a fixed column of
    the detail tables, the totals exist and the summary is built from
    them. *)
Lemma pipeline_total (cons_df cap_df : DataFrame) (act : string)
    (unit_counts : gmap string Z) (sel_rates sel_caps : list string) :
  sel_rates ++ sel_caps ≠ [] →
  (∀ c, c ∈ sel_rates → c ∈ columns cons_df) →
  NoDup (["unit_type"; "action"; "count"] ++ sel_rates) →
  (∀ c, c ∈ sel_caps → c ∈ columns cap_df) →
  NoDup (["unit_type"; "count"] ++ sel_caps) →
  ∃ rd cd tr tc summary,
    compute_totals cons_df cap_df act unit_counts sel_rates sel_caps
    = Some (rd, cd, tr, tc) ∧
    build_group_summary tr tc sel_rates sel_caps = Some summary.
Proof.
  intros Hne H1 N1 H2 N2.
  destruct (compute_totals_total cons_df cap_df act unit_counts _ _ H1 N1 H2 N2)
    as [[[[rd cd] tr] tc] E].
  pose proof E as (_ & _ & Hr & Hc)%compute_totals_inv.
  destruct (build_group_summary_total tr tc sel_rates sel_caps Hne)
    as [summary Hs].
  { intros c Hin. rewrite Hr, decide_True by done. by eexists. }
  { intros c Hin. rewrite Hc, decide_True by done. by eexists. }
  by exists rd, cd, tr, tc, summary.
Qed.



(** ** The formatter *)

Example fmt_examples :
  fmt_parenthesis (FloatVal float_m1234_9) = Some "(1,234)" ∧
  fmt_parenthesis (IntVal 5678) = Some "5,678" ∧
  fmt_parenthesis (FloatVal float_5678) = Some "5,678" ∧
  fmt_parenthesis (IntVal (-1234567)) = Some "(1,234,567)" ∧
  fmt_parenthesis (IntVal 0) = Some "0" ∧
  fmt_parenthesis (FloatVal S754_nan) = Some "-" ∧
  fmt_parenthesis NoneVal = Some "-".
Proof. repeat split; reflexivity. Qed.

Section Formatter.

Lemma to_int_truncates (x : number) (i : Z) :
  to_int x = Some i → truncates x i.
Proof.
  destruct x as [|j|[sg|sg| |sg m e]]; simpl; try done; intros [= <-]; try done.
  exists (Z.shiftl (Z.pos m) e).
  split; [by apply Z.shiftl_nonneg|]. split; [done|].
  destruct (Z.leb_spec 0 e) as [He|He].
  - by apply Z.shiftl_mul_pow2.
  - assert (0 < 2 ^ (- e)) as Hp by (apply Z.pow_pos_nonneg; lia).
    replace e with (- - e) at 1 3 by lia.
    rewrite Z.shiftl_opp_r, Z.shiftr_div_pow2 by lia.
    pose proof (Z.mul_div_le (Z.pos m) _ Hp).
    pose proof (Z.mul_succ_div_gt (Z.pos m) _ Hp). lia.
Qed.

Lemma to_int_total (x : number) :
  isna x = false → (∀ sg, x ≠ FloatVal (S754_infinity sg)) →
  is_Some (to_int x).
Proof.
  destruct x as [|j|[sg|sg| |sg m e]]; simpl; try done; try by eexists.
  intros _ H. by destruct (H sg).
Qed.

Lemma length_app_s (a b : string) :
  String.length (a +:+ b) = (String.length a + String.length b)%nat.
Proof. induction a as [|c a IH]; simpl; [done | by rewrite IH]. Qed.

(** Up to three digits take no separator. *)
Lemma group3_short (d : string) :
  (String.length d ≤ 3)%nat → group3 d = d.
Proof.
  destruct d as [|c1 [|c2 [|c3 [|c4 d]]]]; simpl; try done. lia.
Qed.

(** The last three digits are set off by a comma from what precedes them. *)
Lemma group3_app (a b : string) :
  a ≠ "" → String.length b = 3%nat →
  group3 (a +:+ b) = group3 a +:+ "," +:+ b.
Proof.
  intros Ha Hb. induction a as [|c a IH]; [done|].
  change (String c a +:+ b) with (String c (a +:+ b)).
  cbn [group3]. rewrite length_app_s, Hb.
  destruct a as [|c' a].
  - change ("" +:+ b) with b. rewrite group3_short by lia. reflexivity.
  - rewrite IH by done.
    assert ((0 <? String.length (String c' a) + 3)%nat = true) as ->
      by (apply Nat.ltb_lt; simpl; lia).
    assert ((0 <? String.length (String c' a))%nat = true) as ->
      by (apply Nat.ltb_lt; simpl; lia).
    replace ((String.length (String c' a) + 3) mod 3)%nat
      with (String.length (String c' a) mod 3)%nat
      by (rewrite <- (Nat.Div0.mod_add _ 1 3); f_equal; lia).
    simpl andb. destruct (_ =? 0)%nat; reflexivity.
Qed.

Lemma fmt_parenthesis_int (x : number) (i : Z) :
  isna x = false → to_int x = Some i →
  fmt_parenthesis x
  = Some (if i <? 0 then "(" +:+ group3 (digits (Z.abs i)) +:+ ")"
          else group3 (digits i)).
Proof.
  intros Hna Hi. unfold fmt_parenthesis. rewrite Hna, Hi.
  cbn [mbind option_bind]. f_equal.
  unfold format_comma. destruct (Z.ltb_spec i 0) as [Hlt|Hge].
  - by rewrite (proj2 (Z.ltb_ge (Z.abs i) 0)) by lia.
  - done.
Qed.

End Formatter.

(** C9 (as amended). [fmt_parenthesis] renders a missing value or NaN as
    ["-"]; every integer and every finite float is first truncated toward
    zero to an integer, which is rendered with thousands separators when it
    is not negative and as its absolute value with thousands separators, in
    parentheses, when it is negative; for an infinite float it raises
    [OverflowError].  The separators set off the last three digits, again
    and again; up to three digits take none.  In particular -1234.9 gives
    ["(1,234)"], 5678 gives ["5,678"] and NaN gives ["-"]. *)
Theorem fmt_parenthesis_spec :
  (∀ x, isna x = true → fmt_parenthesis x = Some "-") ∧
  (∀ x, isna x = false → (∀ sg, x ≠ FloatVal (S754_infinity sg)) →
        ∃ i, to_int x = Some i ∧ truncates x i ∧
             fmt_parenthesis x
             = Some (if i <? 0 then "(" +:+ group3 (digits (Z.abs i)) +:+ ")"
                     else group3 (digits i))) ∧
  (∀ sg, fmt_parenthesis (FloatVal (S754_infinity sg)) = None) ∧
  (∀ d, (String.length d ≤ 3)%nat → group3 d = d) ∧
  (∀ a b, a ≠ "" → String.length b = 3%nat →
          group3 (a +:+ b) = group3 a +:+ "," +:+ b) ∧
  fmt_parenthesis (FloatVal float_m1234_9) = Some "(1,234)" ∧
  fmt_parenthesis (IntVal 5678) = Some "5,678" ∧
  fmt_parenthesis (FloatVal S754_nan) = Some "-" ∧
  fmt_parenthesis NoneVal = Some "-".
Proof.
  split; [|split; [|split; [|split; [|split]]]].
  - intros x Hna. unfold fmt_parenthesis. by rewrite Hna.
  - intros x Hna Hfin. destruct (to_int_total x Hna Hfin) as [i Hi].
    exists i. split; [done|]. split; [by apply to_int_truncates|].
    by apply fmt_parenthesis_int.
  - done.
  - apply group3_short.
  - apply group3_app.
  - repeat split; reflexivity.
Qed.

Lemma fmt_parenthesis_spec_witness :
  fmt_parenthesis (FloatVal S754_nan) = Some "-" ∧
  (∃ i, to_int (FloatVal float_m1234_9) = Some i ∧
        truncates (FloatVal float_m1234_9) i ∧
        fmt_parenthesis (FloatVal float_m1234_9)
        = Some (if i <? 0 then "(" +:+ group3 (digits (Z.abs i)) +:+ ")"
                else group3 (digits i))) ∧
  group3 "999" = "999" ∧
  group3 ("1" +:+ "234") = group3 "1" +:+ "," +:+ "234".
Proof.
  destruct fmt_parenthesis_spec as (H1 & H2 & _ & H3 & H4 & _).
  split; [apply H1; reflexivity|].
  split; [apply H2; [reflexivity | discriminate]|].
  split; [apply H3; simpl; lia|].
  apply H4; [discriminate | reflexivity].
Defined.

(** C9 as stated fails: positive infinity is an input other than NaN or a
    missing value, and it is not rendered: [int] raises [OverflowError]. *)
Lemma fmt_parenthesis_not_every_number :
  isna (FloatVal (S754_infinity false)) = false ∧
  fmt_parenthesis (FloatVal (S754_infinity false)) = None ∧
  ¬ renders_every_number.
Proof.
  split; [reflexivity|]. split; [reflexivity|].
  intros H. destruct (H (FloatVal (S754_infinity false)) eq_refl) as [s Hs].
  discriminate Hs.
Qed.

(** ** The detail table *)

Section DetailTable.

Implicit Types (tr tc : gmap string Z) (sr sc : list string).

Lemma comp_row_inv tr tc sc (rate : string) (row : gmap string value) :
  comp_row tr tc sc rate = Some row →
  ∃ req cap,
    tr !! rate = Some req ∧
    sum_over tc (cap_matches sc (base_name rate)) cap ∧
    row !! "Subtype" = Some (VStr (base_name rate)) ∧
    row !! "Requirement" = Some (VNum req) ∧
    row !! "Capacity" = Some (VNum cap) ∧
    row !! "Surplus/(Deficit)" = Some (VNum (wrap64 (cap - req))).
Proof.
  unfold comp_row.
  intros (cap & Hcap%series_sum_iff & (req & Hreq & [= <-])%bind_Some)%bind_Some.
  exists req, cap. repeat split; done.
Qed.

Lemma comp_row_total tr tc sc (rate : string) :
  is_Some (tr !! rate) → (∀ c, c ∈ sc → is_Some (tc !! c)) →
  is_Some (comp_row tr tc sc rate).
Proof.
  intros [req Hreq] Hc. unfold comp_row.
  destruct (sum_over_total tc (cap_matches sc (base_name rate))) as [cap Hcap].
  { intros c [_ Hin]%list_elem_of_filter. by apply Hc. }
  apply series_sum_iff in Hcap. rewrite Hcap, Hreq. by eexists.
Qed.

(** The total of a capacity column outside [labels] does not enter the sum
    over [labels]. *)
Lemma series_sum_insert_ne (s : gmap string Z) (labels : list string)
    (c : string) (v : Z) :
  c ∉ labels → series_sum (<[c := v]> s) labels = series_sum s labels.
Proof.
  intros Hc. unfold series_sum. f_equal.
  induction labels as [|l ls IH]; [done|].
  apply not_elem_of_cons in Hc as [Hne Hc].
  cbn [mapM]. rewrite lookup_insert_ne by done. by rewrite IH.
Qed.

Lemma comp_row_insert_unmatched tr tc sc (rate c : string) (v : Z) :
  PyStr.startswith (base_name rate) c = false →
  comp_row tr (<[c := v]> tc) sc rate = comp_row tr tc sc rate.
Proof.
  intros Hc. unfold comp_row. rewrite series_sum_insert_ne; [done|].
  intros [Hm _]%list_elem_of_filter. congruence.
Qed.

End DetailTable.

(** C7 (as amended). The detail builder returns one row per selected rate
    column, in their order: Subtype is the rate column's base name, which is
    its name with every [_rate] removed, Requirement its total requirement,
    Capacity the sum of the total capacity over the selected capacity
    columns whose name starts with that base name, and Surplus/(Deficit) is
    Capacity minus Requirement, as an int64 number (the exact difference
    when that is in the range of int64).  A selected capacity column that
    matches no selected rate column produces no row: whatever its total, the
    table is the same. *)
Theorem comp_rows_spec (tr tc : gmap string Z) (sr sc : list string)
    (table : list (gmap string value)) :
  comp_rows tr tc sr sc = Some table →
  length table = length sr ∧
  Forall2 (λ rate row,
             ∃ req cap surplus,
               tr !! rate = Some req ∧
               sum_over tc
                 (filter (λ c, PyStr.startswith (base_name rate) c = true) sc)
                 cap ∧
               row !! "Subtype" = Some (VStr (base_name rate)) ∧
               row !! "Requirement" = Some (VNum req) ∧
               row !! "Capacity" = Some (VNum cap) ∧
               row !! "Surplus/(Deficit)" = Some (VNum surplus) ∧
               int64_of (cap - req) surplus ∧
               (in_int64 (cap - req) → surplus = cap - req))
          sr table ∧
  (∀ c v, (∀ rate, rate ∈ sr → PyStr.startswith (base_name rate) c = false) →
          comp_rows tr (<[c := v]> tc) sr sc = Some table).
Proof.
  unfold comp_rows. intros H. split; [|split].
  - apply mapM_Some_1, Forall2_length in H. done.
  - apply mapM_Some_1 in H.
    eapply Forall2_impl; [exact H|]. intros rate row Hrow. simpl in Hrow.
    apply comp_row_inv in Hrow as (req & cap & ? & ? & ? & ? & ? & Hs).
    exists req, cap, (wrap64 (cap - req)). repeat (split; [done|]).
    split; [apply int64_of_wrap | apply wrap64_small].
  - intros c v Hc. rewrite <- H. clear H.
    induction sr as [|rate rest IH]; [done|].
    cbn [mapM]. rewrite comp_row_insert_unmatched.
    + rewrite IH; [done|]. intros r Hr. apply Hc, elem_of_cons. by right.
    + apply Hc, elem_of_cons. by left.
Qed.

Lemma comp_rows_spec_witness :
  let table := [(<["Surplus/(Deficit)" := VNum (-6)]>
                  (<["Capacity" := VNum 14]>
                    (<["Requirement" := VNum 20]>
                      (<["Subtype" := VStr "CL_III"]> ∅))))] in
  length table = length Scenario.sel_rates ∧
  Forall2 (λ rate row,
             ∃ req cap surplus,
               Scenario.total_req !! rate = Some req ∧
               sum_over Scenario.total_cap
                 (filter (λ c, PyStr.startswith (base_name rate) c = true)
                         Scenario.sel_caps) cap ∧
               row !! "Subtype" = Some (VStr (base_name rate)) ∧
               row !! "Requirement" = Some (VNum req) ∧
               row !! "Capacity" = Some (VNum cap) ∧
               row !! "Surplus/(Deficit)" = Some (VNum surplus) ∧
               int64_of (cap - req) surplus ∧
               (in_int64 (cap - req) → surplus = cap - req))
          Scenario.sel_rates table ∧
  (∀ c v, (∀ rate, rate ∈ Scenario.sel_rates →
                   PyStr.startswith (base_name rate) c = false) →
          comp_rows Scenario.total_req (<[c := v]> Scenario.total_cap)
            Scenario.sel_rates Scenario.sel_caps = Some table).
Proof.
  apply (comp_rows_spec Scenario.total_req Scenario.total_cap
           Scenario.sel_rates Scenario.sel_caps).
  reflexivity.
Defined.

(** C7 as stated fails.  The rate column [a_rate_b_rate] has the requirement
    5 and the capacity column [a_b_cap] the capacity 3.  The code removes
    both [_rate]: the row has the Subtype [a_b] and the Capacity 3.  With the
    suffix stripped the base name is [a_rate_b], which no capacity column
    starts with. *)
Lemma comp_rows_not_as_stated :
  let table := [(<["Surplus/(Deficit)" := VNum (-2)]>
                  (<["Capacity" := VNum 3]>
                    (<["Requirement" := VNum 5]>
                      (<["Subtype" := VStr "a_b"]> ∅))))] in
  comp_rows {["a_rate_b_rate" := 5]} {["a_b_cap" := 3]}
    ["a_rate_b_rate"] ["a_b_cap"] = Some table ∧
  strip_suffix RATE_SUFFIX "a_rate_b_rate" = "a_rate_b" ∧
  ¬ detail_as_stated {["a_rate_b_rate" := 5]} {["a_b_cap" := 3]}
      ["a_rate_b_rate"] ["a_b_cap"] table.
Proof.
  intros table. split; [reflexivity|]. split; [reflexivity|].
  intros H. apply Forall2_cons_1 in H as [(req & cap & surplus & _ & _ & Hsub & _) _].
  discriminate Hsub.
Qed.

(** The detail builder returns whenever the totals cover the selection. *)
Lemma comp_rows_total (tr tc : gmap string Z) (sr sc : list string) :
  (∀ c, c ∈ sr → is_Some (tr !! c)) →
  (∀ c, c ∈ sc → is_Some (tc !! c)) →
  is_Some (comp_rows tr tc sr sc).
Proof.
  intros Hr Hc. apply mapM_is_Some, Forall_forall. intros rate Hin.
  apply comp_row_total; [by apply Hr | done].
Qed.

(** A capacity column without a rate column: no row stands for it. *)
Example capacity_only_no_row :
  comp_rows {["Javelin_rate" := 7]}
    (<["Javelin_cap" := 9]> {["Stinger_cap" := 4]})
    ["Javelin_rate"] ["Javelin_cap"; "Stinger_cap"]
  = Some [(<["Surplus/(Deficit)" := VNum 2]>
            (<["Capacity" := VNum 9]>
              (<["Requirement" := VNum 7]>
                (<["Subtype" := VStr "Javelin"]> ∅))))].
Proof. reflexivity. Qed.

(** ** The base name *)




(** * Further properties of the code *)

(** ** [compute_totals]: errors, index, counts and actions *)


(** A rate column selected twice, and the column [count] selected: the call
    raises. *)
Example duplicate_selection_raises :
  compute_totals Scenario.cons_df Scenario.cap_df "Assault"
    Scenario.unit_counts ["CL_III_rate"; "CL_III_rate"] Scenario.sel_caps
  = None ∧
  compute_totals Scenario.cons_df Scenario.cap_df "Assault"
    Scenario.unit_counts ["count"] Scenario.sel_caps
  = None.
Proof. split; reflexivity. Qed.

(** X2. The two series of totals are indexed by exactly the selected
    columns: a total exists for a column if and only if it was selected. *)
Theorem totals_index (cons_df cap_df : DataFrame) (act : string)
    (unit_counts : gmap string Z) (sel_rates sel_caps : list string)
    rd cd (tr tc : gmap string Z) :
  compute_totals cons_df cap_df act unit_counts sel_rates sel_caps
  = Some (rd, cd, tr, tc) →
  dom tr = list_to_set sel_rates ∧ dom tc = list_to_set sel_caps.
Proof.
  intros (_ & _ & Hr & Hc)%compute_totals_inv.
  split; apply set_eq; intros c; rewrite elem_of_dom, elem_of_list_to_set.
  - rewrite Hr. case_decide; split; done.
  - rewrite Hc. case_decide; split; done.
Qed.

Lemma totals_index_witness :
  dom Scenario.total_req = list_to_set Scenario.sel_rates ∧
  dom Scenario.total_cap = list_to_set Scenario.sel_caps.
Proof.
  eapply (totals_index Scenario.cons_df Scenario.cap_df "Assault"
            Scenario.unit_counts).
  reflexivity.
Defined.

(** X3. Zero counts give zero totals: when every unit type of the mapping
    has the count 0 (types absent from it count 0 anyway), every total
    requirement and every total capacity is 0. *)
Theorem zero_counts_zero_totals (cons_df cap_df : DataFrame) (act : string)
    (unit_counts : gmap string Z) (sel_rates sel_caps : list string)
    rd cd (tr tc : gmap string Z) :
  (∀ u n, unit_counts !! u = Some n → n = 0) →
  compute_totals cons_df cap_df act unit_counts sel_rates sel_caps
  = Some (rd, cd, tr, tc) →
  (∀ c v, tr !! c = Some v → v = 0) ∧ (∀ c v, tc !! c = Some v → v = 0).
Proof.
  intros Hz (_ & _ & Hr & Hc)%compute_totals_inv.
  assert (∀ u, count_of unit_counts u = 0) as Hcount.
  { intros u. unfold count_of. destruct (unit_counts !! u) eqn:E; [|done].
    by eapply Hz. }
  split; intros c v.
  - rewrite Hr. case_decide; [|done]. intros [= <-].
    unfold requirement_of. rewrite exact_sum_zero; [done|].
    apply Forall_fmap, Forall_forall. intros r _. simpl.
    rewrite Hcount. case_decide; lia.
  - rewrite Hc. case_decide; [|done]. intros [= <-].
    unfold capacity_of. rewrite exact_sum_zero; [done|].
    apply Forall_fmap, Forall_forall. intros r _. simpl.
    rewrite Hcount. lia.
Qed.

Lemma zero_counts_zero_totals_witness :
  ∃ rd cd (tr tc : gmap string Z),
    compute_totals Scenario.cons_df Scenario.cap_df "Assault"
      {["InfantryCo" := 0]} Scenario.sel_rates Scenario.sel_caps
    = Some (rd, cd, tr, tc) ∧
    (∀ c v, tr !! c = Some v → v = 0) ∧ (∀ c v, tc !! c = Some v → v = 0).
Proof.
  eexists _, _, _, _. split; [reflexivity|].
  eapply (zero_counts_zero_totals Scenario.cons_df Scenario.cap_df "Assault"
            {["InfantryCo" := 0]} Scenario.sel_rates Scenario.sel_caps).
  - intros u n [_ <-]%lookup_singleton_Some. reflexivity.
  - reflexivity.
Defined.

(** X4. Capacity does not depend on the action: for two actions, the
    capacity detail and the total capacity are the same. *)
Theorem capacity_action_independent (cons_df cap_df : DataFrame)
    (act1 act2 : string) (unit_counts : gmap string Z)
    (sel_rates sel_caps : list string)
    rd1 cd1 (tr1 tc1 : gmap string Z) rd2 cd2 (tr2 tc2 : gmap string Z) :
  compute_totals cons_df cap_df act1 unit_counts sel_rates sel_caps
  = Some (rd1, cd1, tr1, tc1) →
  compute_totals cons_df cap_df act2 unit_counts sel_rates sel_caps
  = Some (rd2, cd2, tr2, tc2) →
  cd1 = cd2 ∧ tc1 = tc2.
Proof.
  unfold compute_totals.
  destruct (select_ok cons_df req_fixed sel_rates); [|done].
  destruct (select_ok cap_df cap_fixed sel_caps); [|done].
  simpl. by intros [= _ <- _ <-] [= _ <- _ <-].
Qed.

Lemma capacity_action_independent_witness :
  ∃ rd1 cd1 (tr1 tc1 : gmap string Z) rd2 cd2 (tr2 tc2 : gmap string Z),
    compute_totals Scenario.cons_df Scenario.cap_df "Assault"
      Scenario.unit_counts Scenario.sel_rates Scenario.sel_caps
    = Some (rd1, cd1, tr1, tc1) ∧
    compute_totals Scenario.cons_df Scenario.cap_df "Defend"
      Scenario.unit_counts Scenario.sel_rates Scenario.sel_caps
    = Some (rd2, cd2, tr2, tc2) ∧
    cd1 = cd2 ∧ tc1 = tc2.
Proof.
  eexists _, _, _, _, _, _, _, _.
  split; [reflexivity|]. split; [reflexivity|].
  eapply (capacity_action_independent Scenario.cons_df Scenario.cap_df
            "Assault" "Defend" Scenario.unit_counts
            Scenario.sel_rates Scenario.sel_caps); reflexivity.
Defined.

(** X5. An action that no consumption row has: the requirement detail is
    empty and every selected rate column has the total requirement 0. *)
Theorem action_without_rows (cons_df cap_df : DataFrame) (act : string)
    (unit_counts : gmap string Z) (sel_rates sel_caps : list string)
    rd cd (tr tc : gmap string Z) :
  (∀ r, r ∈ rows cons_df → action r ≠ act) →
  compute_totals cons_df cap_df act unit_counts sel_rates sel_caps
  = Some (rd, cd, tr, tc) →
  rd = [] ∧ ∀ c, c ∈ sel_rates → tr !! c = Some 0.
Proof.
  intros Hno E.
  assert (filter (λ r, action r = act) (rows cons_df) = []) as Hf.
  { induction (rows cons_df) as [|r rs IH]; [done|].
    rewrite filter_cons. destruct (decide (action r = act)) as [Ha|_].
    - destruct (Hno r); [apply elem_of_cons; by left | done].
    - apply IH. intros r' Hr'. apply Hno, elem_of_cons. by right. }
  split.
  - revert E. unfold compute_totals.
    destruct (select_ok cons_df req_fixed sel_rates); [|done].
    destruct (select_ok cap_df cap_fixed sel_caps); [|done].
    simpl. rewrite Hf. by intros [= <- _ _ _].
  - apply compute_totals_inv in E as (_ & _ & Hr & _).
    intros c Hc. rewrite Hr, decide_True by done. f_equal.
    unfold requirement_of. rewrite exact_sum_zero; [done|].
    apply Forall_fmap, Forall_forall. intros r Hin. simpl.
    case_decide; [|done]. by destruct (Hno r Hin).
Qed.

Lemma action_without_rows_witness :
  ∃ rd cd (tr tc : gmap string Z),
    compute_totals Scenario.cons_df Scenario.cap_df "Defend"
      Scenario.unit_counts Scenario.sel_rates Scenario.sel_caps
    = Some (rd, cd, tr, tc) ∧
    rd = [] ∧ ∀ c, c ∈ Scenario.sel_rates → tr !! c = Some 0.
Proof.
  eexists _, _, _, _. split; [reflexivity|].
  eapply (action_without_rows Scenario.cons_df Scenario.cap_df "Defend"
            Scenario.unit_counts Scenario.sel_rates Scenario.sel_caps).
  - intros r [->|Hr%elem_of_nil]%elem_of_cons; [discriminate | done].
  - reflexivity.
Defined.

Section Monotone.



End Monotone.



(** More units can lower a total that does not fit: the rate [2^62] gives
    the total [2^62] for one unit and [-2^63] for two. *)
Example totals_not_monotone_on_overflow :
  let cons_df := Frame ["X_rate"]
                   [Row "Unit" "Assault" {["X_rate" := 4611686018427387904]}] in
  let cap_df := Frame ["X_cap"] [Row "Unit" "" {["X_cap" := 1]}] in
  (∃ rd cd tc,
     compute_totals cons_df cap_df "Assault" {["Unit" := 1]}
       ["X_rate"] ["X_cap"]
     = Some (rd, cd, {["X_rate" := 4611686018427387904]}, tc)) ∧
  (∃ rd cd tc,
     compute_totals cons_df cap_df "Assault" {["Unit" := 2]}
       ["X_rate"] ["X_cap"]
     = Some (rd, cd, {["X_rate" := -9223372036854775808]}, tc)).
Proof. split; eexists _, _, _; reflexivity. Qed.



(** ** [group_prefix]: tokens *)

Section Tokens.

Lemma split_go_sepfree_nil (sep : ascii) (h : string) :
  occurs_char sep h = false → PyStr.split_go sep h = (h, []).
Proof.
  induction h as [|c h IH]; [done|].
  cbn [occurs_char PyStr.split_go]. intros [Hc Hh]%orb_false_iff.
  by rewrite (IH Hh), Hc.
Qed.

(** Splitting distributes over a separator: the tokens of [b], then those
    of [x]. *)
Lemma split_go_app (sep : ascii) (b x : string) :
  PyStr.split_go sep (b +:+ String sep x)
  = ((PyStr.split_go sep b).1, (PyStr.split_go sep b).2 ++ PyStr.split sep x).
Proof.
  induction b as [|c b IH].
  - change ("" +:+ String sep x) with (String sep x).
    cbn [PyStr.split_go]. rewrite Ascii.eqb_refl. unfold PyStr.split.
    by destruct (PyStr.split_go sep x).
  - change (String c b +:+ String sep x) with (String c (b +:+ String sep x)).
    cbn [PyStr.split_go]. rewrite IH.
    destruct (PyStr.split_go sep b) as [h t]. simpl.
    by destruct (Ascii.eqb c sep).
Qed.

Lemma startswith_token (sep : ascii) (q s : string) :
  occurs_char sep q = false →
  PyStr.startswith (q +:+ String sep "") s = true ↔
  (PyStr.split_go sep s).1 = q ∧ (PyStr.split_go sep s).2 ≠ [].
Proof.
  intros Hq. rewrite startswith_iff. split.
  - intros [r ->]. rewrite app_assoc_s.
    change (String sep "" +:+ r) with (String sep r).
    rewrite split_go_app, (split_go_sepfree_nil _ _ Hq). simpl.
    split; [done|]. unfold PyStr.split. by destruct (PyStr.split_go sep r).
  - destruct (split_go_shape sep s) as [_ H].
    destruct (PyStr.split_go sep s) as [h t]. simpl in *.
    intros [<- Ht]. destruct t as [|t1 t]; [done|].
    destruct H as (rest & -> & _). exists rest.
    by rewrite app_assoc_s.
Qed.

Lemma group_prefix_tokens (col : string) :
  group_prefix col
  = match (PyStr.split_go "_" col).2 with
    | p1 :: _ =>
        if String.eqb (PyStr.split_go "_" col).1 "CL" then "CL_" +:+ p1
        else (PyStr.split_go "_" col).1
    | [] => (PyStr.split_go "_" col).1
    end.
Proof.
  unfold group_prefix.
  pose proof (startswith_token "_" "CL" col eq_refl) as HCL.
  pose proof (startswith_token "_" "Recovery" col eq_refl) as HRec.
  change ("CL" +:+ String "_" "") with "CL_" in HCL.
  change ("Recovery" +:+ String "_" "") with "Recovery_" in HRec.
  unfold PyStr.split.
  destruct (PyStr.split_go "_" col) as [h t]; simpl in *.
  destruct (PyStr.startswith "CL_" col).
  - destruct (proj1 HCL eq_refl) as [-> Ht]. by destruct t.
  - destruct (PyStr.startswith "Recovery_" col).
    + destruct (proj1 HRec eq_refl) as [-> Ht]. by destruct t.
    + destruct t as [|p1 t]; [done|].
      destruct (String.eqb_spec h "CL") as [->|Hne]; [|done].
      exfalso. by assert (false = true) by (by apply HCL).
Qed.

End Tokens.

(** X8. The group of a column is its first underscore-delimited token,
    unless that token is [CL] and another token follows: then it is [CL_]
    and the second token.  The [Recovery_] rule never changes this result. *)
Theorem group_prefix_by_tokens (col : string) :
  group_prefix col
  = match PyStr.split "_" col with
    | p0 :: p1 :: _ => if String.eqb p0 "CL" then "CL_" +:+ p1 else p0
    | p0 :: [] => p0
    | [] => EmptyString
    end.
Proof.
  rewrite group_prefix_tokens. unfold PyStr.split.
  destruct (PyStr.split_go "_" col) as [h t]. simpl. by destruct t.
Qed.

(** X9. The group name is a prefix of the column name, and it is its own
    group: classifying a group name gives that name again. *)
Theorem group_prefix_prefix_idempotent (col : string) :
  PyStr.startswith (group_prefix col) col = true ∧
  group_prefix (group_prefix col) = group_prefix col.
Proof.
  rewrite (group_prefix_tokens col).
  destruct (split_go_shape "_" col) as [Hh Ht].
  destruct (PyStr.split_go "_" col) as [h t]; simpl in *.
  assert (group_prefix h = h) as Hidem.
  { rewrite group_prefix_tokens, (split_go_sepfree_nil _ _ Hh). done. }
  destruct t as [|p1 t].
  - subst col. split; [|done]. apply startswith_iff. exists "".
    by rewrite app_empty_r.
  - destruct Ht as (rest & -> & Hrest).
    destruct (String.eqb_spec h "CL") as [->|Hne].
    + destruct (split_go_shape "_" rest) as [Hp1 Hr].
      rewrite Hrest in Hp1, Hr. simpl in Hp1, Hr. split.
      * apply startswith_iff.
        destruct t as [|p2 t].
        -- subst rest. exists "". by rewrite app_empty_r.
        -- destruct Hr as (rest' & -> & _). exists (String "_" rest').
           reflexivity.
      * change (String "C" (String "L" (String "_" p1)))
          with ("CL" +:+ String "_" p1).
        rewrite group_prefix_tokens, split_go_app. unfold PyStr.split.
        rewrite (split_go_sepfree_nil _ _ Hp1). reflexivity.
    + split; [|done]. apply startswith_iff. by exists (String "_" rest).
Qed.

(** X10. A column is in the group of its base name: for every base [b]
    other than [CL], the column [b_x] has the group of [b], whatever [x] is;
    so the rate column [b_rate] and the capacity column [b_cap] fall in the
    same group.  The base [CL] is the exception: [CL_rate] and [CL_cap] are
    two groups. *)
Theorem group_of_base :
  (∀ b x, b ≠ "CL" → group_prefix (b +:+ "_" +:+ x) = group_prefix b) ∧
  (∀ b, b ≠ "CL" →
        group_prefix (b +:+ RATE_SUFFIX) = group_prefix (b +:+ CAP_SUFFIX)) ∧
  group_prefix "CL_rate" = "CL_rate" ∧ group_prefix "CL_cap" = "CL_cap".
Proof.
  assert (∀ b x, b ≠ "CL" → group_prefix (b +:+ "_" +:+ x) = group_prefix b)
    as H.
  { intros b x Hb. rewrite !group_prefix_tokens.
    change ("_" +:+ x) with (String "_" x). rewrite split_go_app.
    destruct (split_go_shape "_" b) as [_ Ht].
    destruct (PyStr.split_go "_" b) as [h t]; simpl in *.
    destruct t as [|p1 t]; [|done]. subst h.
    unfold PyStr.split. destruct (PyStr.split_go "_" x) as [hx tx]. simpl.
    by destruct (String.eqb_spec b "CL"). }
  split; [done|]. split; [|by split].
  intros b Hb.
  change (b +:+ RATE_SUFFIX) with (b +:+ "_" +:+ "rate").
  change (b +:+ CAP_SUFFIX) with (b +:+ "_" +:+ "cap").
  by rewrite !H.
Qed.

Lemma group_of_base_witness :
  group_prefix ("CL_III" +:+ "_" +:+ "bulk_cap") = group_prefix "CL_III" ∧
  group_prefix ("Recovery" +:+ RATE_SUFFIX)
  = group_prefix ("Recovery" +:+ CAP_SUFFIX).
Proof.
  destruct group_of_base as (H1 & H2 & _).
  split; [apply H1; discriminate | apply H2; discriminate].
Defined.

(** ** [build_group_summary]: errors, groups, conservation, deficits *)

Section SummaryFacts.

Implicit Types (tr tc : gmap string Z) (sr sc : list string).

Lemma group_row_covers tr tc sr sc (g : string) (row : gmap string value) :
  group_row tr tc sr sc g = Some row →
  (∀ c, c ∈ sr → group_prefix c = g → is_Some (tr !! c)) ∧
  (∀ c, c ∈ sc → group_prefix c = g → is_Some (tc !! c)).
Proof.
  intros (req & cap & _ & _ & _ & Hreq & Hcap & _)%group_row_inv.
  split; intros c Hin Hg.
  - eapply sum_over_is_Some; [exact Hreq|]. apply list_elem_of_filter. by split.
  - eapply sum_over_is_Some; [exact Hcap|]. apply list_elem_of_filter. by split.
Qed.

Lemma build_group_summary_covers tr tc sr sc
    (summary : list (gmap string value)) :
  build_group_summary tr tc sr sc = Some summary →
  (∀ c, c ∈ sr → is_Some (tr !! c)) ∧ (∀ c, c ∈ sc → is_Some (tc !! c)).
Proof.
  intros HF%build_group_summary_rows.
  assert (∀ c, c ∈ sr ++ sc →
            ∃ row, group_row tr tc sr sc (group_prefix c) = Some row) as Hrow.
  { intros c Hc.
    assert (group_prefix c ∈ group_names sr sc) as Hg
      by (apply elem_of_group_names; by exists c).
    destruct (Forall2_elem_of_l _ _ _ _ HF Hg) as (row & _ & Hr). by exists row. }
  split; intros c Hc.
  - destruct (Hrow c) as [row Hr]; [apply elem_of_app; by left|].
    by apply (group_row_covers _ _ _ _ _ _ Hr).
  - destruct (Hrow c) as [row Hr]; [apply elem_of_app; by right|].
    by apply (group_row_covers _ _ _ _ _ _ Hr).
Qed.

End SummaryFacts.

(** X11. [build_group_summary] returns exactly when a column is selected and
    the two series hold a total for every selected column; otherwise it
    raises [KeyError]. *)
Theorem build_group_summary_defined_iff (tr tc : gmap string Z)
    (sr sc : list string) :
  is_Some (build_group_summary tr tc sr sc) ↔
  sr ++ sc ≠ [] ∧
  (∀ c, c ∈ sr → is_Some (tr !! c)) ∧ (∀ c, c ∈ sc → is_Some (tc !! c)).
Proof.
  split.
  - intros [summary Hs]. split; [|by eapply build_group_summary_covers].
    intros [-> ->]%app_eq_nil. by rewrite build_group_summary_empty in Hs.
  - intros (Hne & Hr & Hc). by apply build_group_summary_total.
Qed.

(** X12. The summary has one row per group, in ascending order of the group
    names and without repetition; the groups are exactly the prefixes of the
    selected rate and capacity columns, so a group with capacity columns only
    (or rate columns only) has its row too. *)
Theorem summary_groups (tr tc : gmap string Z) (sr sc : list string)
    (summary : list (gmap string value)) :
  build_group_summary tr tc sr sc = Some summary →
  ∃ gs,
    Forall2 (λ g row, row !! "Group" = Some (VStr g)) gs summary ∧
    StronglySorted String.le gs ∧ NoDup gs ∧
    ∀ g, g ∈ gs ↔ ∃ c, c ∈ sr ++ sc ∧ group_prefix c = g.
Proof.
  intros HF%build_group_summary_rows. exists (group_names sr sc).
  split; [|split; [|split]].
  - eapply Forall2_impl; [exact HF|]. intros g row Hrow. simpl in Hrow.
    apply group_row_inv in Hrow
      as (req & cap & bulk & wheel & deficit & _ & _ & _ & _ & _ & ->).
    apply (summary_row_fields g req cap (wrap64 (cap - req)) deficit bulk wheel
             (λ b, wrap64 (b - req)) (λ w, wrap64 (w - req))).
  - apply group_names_sorted.
  - apply group_names_sorted.
  - apply elem_of_group_names.
Qed.

Lemma summary_groups_witness :
  ∃ gs,
    Forall2 (λ g row, row !! "Group" = Some (VStr g)) gs [Scenario.row] ∧
    StronglySorted String.le gs ∧ NoDup gs ∧
    ∀ g, g ∈ gs ↔
         ∃ c, c ∈ Scenario.sel_rates ++ Scenario.sel_caps ∧ group_prefix c = g.
Proof.
  apply (summary_groups Scenario.total_req Scenario.total_cap
           Scenario.sel_rates Scenario.sel_caps).
  reflexivity.
Defined.

Section Conservation.

(** Over a duplicate-free list that holds [k], the indicator of [k] sums
    to one. *)
Lemma exact_sum_indicator (k : string) (v : Z) (G : list string) :
  NoDup G → k ∈ G →
  exact_sum ((λ g, if decide (k = g) then v else 0) <$> G) = v.
Proof.
  induction 1 as [|g G Hg _ IH]; [by intros ?%elem_of_nil|].
  rewrite fmap_cons, exact_sum_cons. intros [->|Hin]%elem_of_cons.
  - rewrite decide_True by done.
    rewrite exact_sum_zero; [lia|].
    apply Forall_fmap, Forall_forall. intros g0 Hg0. simpl.
    case_decide; [by subst | done].
  - rewrite decide_False by (intros ->; done).
    rewrite IH by done. lia.
Qed.

(** Summing group by group is summing over the whole selection. *)
Lemma exact_sum_by_group (f : string → Z) (sel G : list string) :
  NoDup G → (∀ c, c ∈ sel → group_prefix c ∈ G) →
  exact_sum ((λ g, exact_sum (f <$> filter (λ c, group_prefix c = g) sel)) <$> G)
  = exact_sum (f <$> sel).
Proof.
  intros HG. induction sel as [|c sel IH]; intros Hin.
  - apply exact_sum_zero, Forall_fmap, Forall_forall. by intros g _.
  - rewrite fmap_cons, exact_sum_cons.
    rewrite <- IH by (intros c' Hc'; apply Hin, elem_of_cons; by right).
    rewrite <- (exact_sum_indicator (group_prefix c) (f c) G HG)
      by (apply Hin, elem_of_cons; by left).
    rewrite <- exact_sum_fmap_add. f_equal. apply list_fmap_ext. intros _ g _.
    rewrite filter_cons.
    destruct (decide (group_prefix c = g));
      [by rewrite fmap_cons, exact_sum_cons | simpl; lia].
Qed.

Lemma field_values_fmap (k : string) (F : string → Z) (G : list string)
    (table : list (gmap string value)) :
  Forall2 (λ g row, row !! k = Some (VNum (F g))) G table →
  field_values k table = F <$> G.
Proof.
  unfold field_values. induction 1 as [|g row G table Hrow _ IH]; [done|].
  cbn [omap list_omap]. rewrite Hrow. by rewrite fmap_cons, <- IH.
Qed.

End Conservation.

(** X13. Grouping conserves integer totals, in int64: the Requirement
    fields of the summary add up to the sum of the total requirement over
    the selected rate columns, the Capacity fields to the sum of the total
    capacity over the selected capacity columns, and the Surplus/(Deficit)
    fields to the difference of the two, each up to a multiple of [2^64]
    (and exactly, for the first two, when the fields add up to a number in
    the range of int64); no column is counted twice or left out. *)
Theorem totals_conserved (tr tc : gmap string Z) (sr sc : list string)
    (summary : list (gmap string value)) :
  build_group_summary tr tc sr sc = Some summary →
  (∃ v, sum_over tr sr v ∧ int64_of (field_sum "Requirement" summary) v) ∧
  (∃ v, sum_over tc sc v ∧ int64_of (field_sum "Capacity" summary) v) ∧
  congruent64 (field_sum "Surplus/(Deficit)" summary)
    (field_sum "Capacity" summary - field_sum "Requirement" summary).
Proof.
  intros Hs. pose proof (build_group_summary_covers _ _ _ _ _ Hs) as [Hr Hc].
  apply build_group_summary_rows in Hs.
  set (R := λ g, exact_sum ((λ c, default 0 (tr !! c))
                              <$> filter (λ c, group_prefix c = g) sr)).
  set (C := λ g, exact_sum ((λ c, default 0 (tc !! c))
                              <$> filter (λ c, group_prefix c = g) sc)).
  assert (Forall2 (λ g row,
            row !! "Requirement" = Some (VNum (wrap64 (R g))) ∧
            row !! "Capacity" = Some (VNum (wrap64 (C g))) ∧
            row !! "Surplus/(Deficit)"
            = Some (VNum (wrap64 (wrap64 (C g) - wrap64 (R g)))))
          (group_names sr sc) summary) as HF.
  { eapply Forall2_impl; [exact Hs|]. intros g row Hrow. simpl in Hrow.
    apply group_row_inv in Hrow
      as (req & cap & bulk & wheel & deficit & Hreq & Hcap & _ & _ & _ & ->).
    apply sum_over_default in Hreq, Hcap. fold (R g) in Hreq. fold (C g) in Hcap.
    subst req cap.
    destruct (summary_row_fields g (wrap64 (R g)) (wrap64 (C g))
                (wrap64 (wrap64 (C g) - wrap64 (R g))) deficit bulk wheel
                (λ b, wrap64 (b - wrap64 (R g))) (λ w, wrap64 (w - wrap64 (R g))))
      as (_ & F2 & F3 & F4 & _).
    done. }
  assert (field_values "Requirement" summary
          = (λ g, wrap64 (R g)) <$> group_names sr sc) as ER.
  { apply field_values_fmap. eapply Forall2_impl; [exact HF|]. by intros ?? [? _]. }
  assert (field_values "Capacity" summary
          = (λ g, wrap64 (C g)) <$> group_names sr sc) as EC.
  { apply field_values_fmap. eapply Forall2_impl; [exact HF|].
    by intros ?? (_ & ? & _). }
  assert (field_values "Surplus/(Deficit)" summary
          = (λ g, wrap64 (wrap64 (C g) - wrap64 (R g))) <$> group_names sr sc)
    as ES.
  { apply field_values_fmap. eapply Forall2_impl; [exact HF|].
    by intros ?? (_ & _ & ?). }
  destruct (group_names_sorted sr sc) as [_ HND].
  assert (∀ c, c ∈ sr → group_prefix c ∈ group_names sr sc) as Gr.
  { intros c Hin. apply elem_of_group_names. exists c.
    split; [apply elem_of_app; by left | done]. }
  assert (∀ c, c ∈ sc → group_prefix c ∈ group_names sr sc) as Gc.
  { intros c Hin. apply elem_of_group_names. exists c.
    split; [apply elem_of_app; by right | done]. }
  unfold field_sum. rewrite ER, EC, ES.
  split; [|split].
  - eexists. split; [|apply int64_of_wrap].
    rewrite exact_sum_fmap_wrap. unfold R.
    rewrite exact_sum_by_group by done. by apply sum_over_intro.
  - eexists. split; [|apply int64_of_wrap].
    rewrite exact_sum_fmap_wrap. unfold C.
    rewrite exact_sum_by_group by done. by apply sum_over_intro.
  - apply congruent64_wrap.
    rewrite (exact_sum_fmap_wrap (λ g, wrap64 (C g) - wrap64 (R g))).
    by rewrite (exact_sum_fmap_sub (λ g, wrap64 (C g)) (λ g, wrap64 (R g))).
Qed.

Lemma totals_conserved_witness :
  (field_sum "Requirement" [TwoGroups.row_CL_III; TwoGroups.row_Javelin] = 27 ∧
   field_sum "Capacity" [TwoGroups.row_CL_III; TwoGroups.row_Javelin] = 23 ∧
   field_sum "Surplus/(Deficit)" [TwoGroups.row_CL_III; TwoGroups.row_Javelin]
   = -4) ∧
  (∃ v, sum_over TwoGroups.total_req TwoGroups.sel_rates v ∧
        int64_of (field_sum "Requirement"
                    [TwoGroups.row_CL_III; TwoGroups.row_Javelin]) v) ∧
  (∃ v, sum_over TwoGroups.total_cap TwoGroups.sel_caps v ∧
        int64_of (field_sum "Capacity"
                    [TwoGroups.row_CL_III; TwoGroups.row_Javelin]) v) ∧
  congruent64
    (field_sum "Surplus/(Deficit)" [TwoGroups.row_CL_III; TwoGroups.row_Javelin])
    (field_sum "Capacity" [TwoGroups.row_CL_III; TwoGroups.row_Javelin]
     - field_sum "Requirement" [TwoGroups.row_CL_III; TwoGroups.row_Javelin]).
Proof.
  split; [repeat split; reflexivity|].
  apply (totals_conserved TwoGroups.total_req TwoGroups.total_cap
           TwoGroups.sel_rates TwoGroups.sel_caps).
  reflexivity.
Defined.

Lemma deficit_loop_filter (tr tc : gmap string Z) (sc rates deficit : list string) :
  deficit_loop tr tc sc rates = Some deficit →
  deficit = base_name <$> filter (λ rate, in_deficit tr tc sc rate = true) rates.
Proof.
  revert deficit. induction rates as [|rate rest IH]; intros deficit.
  - by intros [= <-].
  - cbn [deficit_loop].
    intros (r & Hr & (s0 & Hs & (tl & Htl & [= <-])%bind_Some)%bind_Some)%bind_Some.
    assert (in_deficit tr tc sc rate = (s0 <? r)) as E
      by (unfold in_deficit; by rewrite Hr, Hs).
    rewrite filter_cons, (IH tl Htl).
    destruct (decide (in_deficit tr tc sc rate = true)) as [H|H];
      rewrite E in H; destruct (s0 <? r); done.
Qed.

(** X14. The Deficit Subtypes field.  Take, among the selected rate columns
    whose group is the row's, in the order of the selection, those whose own
    total requirement exceeds the summed totals of the selected capacity
    columns whose name starts with their base name.  When the row's surplus
    is negative and there is such a column, the field holds their base
    names, in that order and once per column, joined by [", "]; otherwise it
    is the placeholder ["-"]. *)
Theorem deficit_text_spec (tr tc : gmap string Z) (sr sc : list string)
    (summary : list (gmap string value)) (row : gmap string value) :
  build_group_summary tr tc sr sc = Some summary →
  row ∈ summary →
  ∃ g surplus chosen,
    row !! "Group" = Some (VStr g) ∧
    row !! "Surplus/(Deficit)" = Some (VNum surplus) ∧
    selects (short tr tc sc) (filter (λ c, group_prefix c = g) sr) chosen ∧
    row !! "Deficit Subtypes"
    = Some (VStr match (if surplus <? 0 then base_name <$> chosen else []) with
                 | [] => "-"
                 | names => PyStr.join ", " names
                 end).
Proof.
  intros Hs Hin.
  destruct (build_group_summary_covers _ _ _ _ _ Hs) as [Cr Cc].
  destruct (build_group_summary_row _ _ _ _ _ _ Hs Hin) as (g & _ & Hg).
  apply group_row_inv in Hg
    as (req & cap & bulk & wheel & deficit & _ & _ & _ & _ & Hd & ->).
  destruct (deficit_loop_total tr tc sc (filter (λ c, group_prefix c = g) sr))
    as [d' Hd']; [|done|].
  { intros c [_ Hc]%list_elem_of_filter. by apply Cr. }
  destruct (deficit_loop_selects _ _ _ _ _ Hd') as (chosen & Hsel & ->).
  exists g, (wrap64 (cap - req)), chosen.
  destruct (summary_row_fields g req cap (wrap64 (cap - req)) deficit bulk wheel
              (λ b, wrap64 (b - req)) (λ w, wrap64 (w - req)))
    as (F1 & _ & _ & F4 & F5 & _).
  split; [done|]. split; [done|]. split; [done|]. rewrite F5. do 2 f_equal.
  destruct (wrap64 (cap - req) <? 0).
  - rewrite Hd' in Hd. injection Hd as <-. by destruct (base_name <$> chosen).
  - by rewrite Hd.
Qed.

Lemma deficit_text_spec_witness :
  build_group_summary Shortfalls.total_req Shortfalls.total_cap
    Shortfalls.sel_rates Shortfalls.sel_caps
  = Some [Shortfalls.row_Ammo; Shortfalls.row_Fuel] ∧
  Shortfalls.row_Ammo !! "Deficit Subtypes" = Some (VStr "Ammo_a, Ammo_c") ∧
  Shortfalls.row_Fuel !! "Deficit Subtypes" = Some (VStr "-") ∧
  ∃ g surplus chosen,
    Shortfalls.row_Ammo !! "Group" = Some (VStr g) ∧
    Shortfalls.row_Ammo !! "Surplus/(Deficit)" = Some (VNum surplus) ∧
    selects (short Shortfalls.total_req Shortfalls.total_cap Shortfalls.sel_caps)
      (filter (λ c, group_prefix c = g) Shortfalls.sel_rates) chosen ∧
    Shortfalls.row_Ammo !! "Deficit Subtypes"
    = Some (VStr match (if surplus <? 0 then base_name <$> chosen else []) with
                 | [] => "-"
                 | names => PyStr.join ", " names
                 end).
Proof.
  split; [reflexivity|]. split; [reflexivity|]. split; [reflexivity|].
  apply (deficit_text_spec Shortfalls.total_req Shortfalls.total_cap
           Shortfalls.sel_rates Shortfalls.sel_caps
           [Shortfalls.row_Ammo; Shortfalls.row_Fuel]).
  - reflexivity.
  - apply elem_of_cons. by left.
Defined.

(** X15. A rate column that no selected capacity column matches has the
    matched capacity 0: it is in deficit exactly when its total requirement
    is positive, and the detail table shows it with the capacity 0 and the
    surplus 0 minus its requirement. *)
Theorem unmatched_rate (tr tc : gmap string Z) (sc : list string)
    (rate : string) (r : Z) :
  cap_matches sc (base_name rate) = [] →
  tr !! rate = Some r →
  in_deficit tr tc sc rate = (0 <? r) ∧
  ∃ row surplus,
    comp_row tr tc sc rate = Some row ∧
    row !! "Capacity" = Some (VNum 0) ∧
    row !! "Surplus/(Deficit)" = Some (VNum surplus) ∧
    int64_of (0 - r) surplus ∧
    (in_int64 (- r) → surplus = - r).
Proof.
  intros Hm Hr. unfold in_deficit, comp_row. rewrite Hm, Hr. simpl.
  split; [done|]. eexists _, (wrap64 (0 - r)).
  split; [reflexivity|]. split; [reflexivity|].
  rewrite lookup_insert_eq. split; [done|]. split; [apply int64_of_wrap|].
  change (0 - r) with (- r). apply wrap64_small.
Qed.

Lemma unmatched_rate_witness :
  in_deficit {["Javelin_rate" := 7]} {["Stinger_cap" := 4]} ["Stinger_cap"]
    "Javelin_rate" = (0 <? 7) ∧
  ∃ row surplus,
    comp_row {["Javelin_rate" := 7]} {["Stinger_cap" := 4]}
      ["Stinger_cap"] "Javelin_rate" = Some row ∧
    row !! "Capacity" = Some (VNum 0) ∧
    row !! "Surplus/(Deficit)" = Some (VNum surplus) ∧
    int64_of (0 - 7) surplus ∧
    (in_int64 (- 7) → surplus = - 7).
Proof.
  apply (unmatched_rate {["Javelin_rate" := 7]} {["Stinger_cap" := 4]}
           ["Stinger_cap"] "Javelin_rate" 7); reflexivity.
Defined.

(** The scenario of a rate column without capacity: requirement 7, capacity
    0, surplus -7, and the column is in deficit. *)
Example unmatched_rate_numbers :
  comp_row {["Javelin_rate" := 7]} {["Stinger_cap" := 4]}
    ["Stinger_cap"] "Javelin_rate"
  = Some (<["Surplus/(Deficit)" := VNum (-7)]>
           (<["Capacity" := VNum 0]>
             (<["Requirement" := VNum 7]>
               (<["Subtype" := VStr "Javelin"]> ∅)))) ∧
  build_group_summary {["Javelin_rate" := 7]} {["Stinger_cap" := 4]}
    ["Javelin_rate"] ["Stinger_cap"]
  = Some [summary_row "Javelin" 7 0 (-7) ["Javelin"] None None None None;
          summary_row "Stinger" 0 4 4 [] None None None None].
Proof. split; reflexivity. Qed.

(** ** The detail table: errors and prefix matching *)


Section PrefixMatching.

Lemma startswith_trans (a b c : string) :
  PyStr.startswith a b = true → PyStr.startswith b c = true →
  PyStr.startswith a c = true.
Proof.
  intros [r1 ->]%startswith_iff [r2 ->]%startswith_iff.
  rewrite app_assoc_s. apply startswith_app.
Qed.

End PrefixMatching.

(** X17. Matching is by prefix, so it nests: when the base name of one rate
    column is a prefix of the base name of another (as [CL_I] is of
    [CL_III]), every capacity column matched to the second is matched to the
    first as well; and with no negative total capacity, as long as the
    capacities matched to the first add up to less than [2^63], the detail
    table shows for the first at least the capacity it shows for the
    second. *)
Theorem prefix_matching_nests (tr tc : gmap string Z) (sc : list string)
    (r1 r2 : string) (row1 row2 : gmap string value) :
  (∀ c v, tc !! c = Some v → 0 ≤ v) →
  exact_sum ((λ c, default 0 (tc !! c))
               <$> filter (λ c, PyStr.startswith (base_name r1) c = true) sc)
  < 9223372036854775808 →
  PyStr.startswith (base_name r1) (base_name r2) = true →
  comp_row tr tc sc r1 = Some row1 →
  comp_row tr tc sc r2 = Some row2 →
  (∀ c, c ∈ sc → PyStr.startswith (base_name r2) c = true →
        PyStr.startswith (base_name r1) c = true) ∧
  ∃ c1 c2, row1 !! "Capacity" = Some (VNum c1) ∧
           row2 !! "Capacity" = Some (VNum c2) ∧ c2 ≤ c1.
Proof.
  intros Hnn Hb Hpre (q1 & c1 & _ & Hc1 & _ & _ & F1 & _)%comp_row_inv
         (q2 & c2 & _ & Hc2 & _ & _ & F2 & _)%comp_row_inv.
  split.
  - intros c _ Hm. by eapply startswith_trans.
  - exists c1, c2. split; [done|]. split; [done|].
    unfold cap_matches in Hc1, Hc2.
    pose proof (exact_sum_filter_le (λ c, default 0 (tc !! c))
                  (λ c, PyStr.startswith (base_name r2) c = true)
                  (λ c, PyStr.startswith (base_name r1) c = true) sc
                  (λ c, default_nonneg tc c Hnn)
                  (λ c Hm, startswith_trans _ _ _ Hpre Hm)) as Hle.
    assert (exact_sum ((λ c, default 0 (tc !! c))
              <$> filter (λ c, PyStr.startswith (base_name r2) c = true) sc)
            < 9223372036854775808) as Hb2 by lia.
    destruct (sum_over_exact tc _ _ Hnn Hb Hc1) as [-> _].
    destruct (sum_over_exact tc _ _ Hnn Hb2 Hc2) as [-> _].
    done.
Qed.

Lemma prefix_matching_nests_witness :
  let tr : gmap string Z := <["CL_I_rate" := 5]> {["CL_III_rate" := 9]} in
  let tc : gmap string Z := <["CL_I_cap" := 5]> {["CL_III_cap" := 9]} in
  let sc := ["CL_I_cap"; "CL_III_cap"] in
  ∃ row1 row2,
    comp_row tr tc sc "CL_I_rate" = Some row1 ∧
    comp_row tr tc sc "CL_III_rate" = Some row2 ∧
    row1 !! "Capacity" = Some (VNum 14) ∧
    row2 !! "Capacity" = Some (VNum 9) ∧
    (∀ c, c ∈ sc → PyStr.startswith (base_name "CL_III_rate") c = true →
          PyStr.startswith (base_name "CL_I_rate") c = true) ∧
    ∃ c1 c2, row1 !! "Capacity" = Some (VNum c1) ∧
             row2 !! "Capacity" = Some (VNum c2) ∧ c2 ≤ c1.
Proof.
  intros tr tc sc. eexists _, _.
  split; [reflexivity|]. split; [reflexivity|].
  split; [reflexivity|]. split; [reflexivity|].
  eapply (prefix_matching_nests tr tc sc "CL_I_rate" "CL_III_rate").
  - intros c v. unfold tc. rewrite lookup_insert.
    case_decide; [intros [= <-]; lia|].
    intros [_ <-]%lookup_singleton_Some. lia.
  - reflexivity.
  - reflexivity.
  - reflexivity.
  - reflexivity.
Defined.

(** X18. The intended pairing is found: for a base name [b] that holds no
    [_rate], the rate column [b_rate] is matched with every selected column
    whose name starts with [b], such as [b_cap], [b_bulk_cap] and
    [b_wheeled_cap]. *)
Theorem base_pairs_with_caps (b x : string) (sc : list string) :
  PyStr.contains RATE_SUFFIX b = false →
  (b +:+ x) ∈ sc →
  base_name (b +:+ RATE_SUFFIX) = b ∧
  (b +:+ x) ∈ cap_matches sc (base_name (b +:+ RATE_SUFFIX)).
Proof.
  intros Hb Hin.
  assert (base_name (b +:+ RATE_SUFFIX) = b) as E.
  { unfold base_name.
    change (b +:+ RATE_SUFFIX) with (b +:+ RATE_SUFFIX +:+ "").
    rewrite remove_rate_step by done. apply app_empty_r. }
  split; [done|]. rewrite E. apply list_elem_of_filter.
  split; [apply startswith_app | done].
Qed.

Lemma base_pairs_with_caps_witness :
  base_name ("CL_III" +:+ RATE_SUFFIX) = "CL_III" ∧
  ("CL_III" +:+ "_bulk_cap")
  ∈ cap_matches Scenario.sel_caps (base_name ("CL_III" +:+ RATE_SUFFIX)).
Proof.
  apply (base_pairs_with_caps "CL_III" "_bulk_cap" Scenario.sel_caps).
  - reflexivity.
  - apply elem_of_cons. by left.
Defined.

(** ** [fmt_parenthesis]: errors and reading back *)

(** X19. The formatter fails on the two infinite floats only, where [int]
    raises [OverflowError]; every other value is rendered. *)
Theorem fmt_parenthesis_error_iff (x : number) :
  fmt_parenthesis x = None ↔ ∃ sg, x = FloatVal (S754_infinity sg).
Proof.
  split.
  - destruct x as [|j|[sg|sg| |sg m e]]; try done. by exists sg.
  - by intros [sg ->].
Qed.

Section ReadBack.

Lemma all_digits_string_of_uint (d : Decimal.uint) :
  all_digits (NilEmpty.string_of_uint d) = true.
Proof. induction d; simpl; done. Qed.

Lemma digits_all_digits (n : Z) :
  all_digits (digits n) = true ∧ digits n ≠ "".
Proof.
  unfold digits, NilZero.string_of_uint.
  destruct (N.to_uint (Z.to_N n)) eqn:E; simpl;
    (split; [try done; apply all_digits_string_of_uint | done]).
Qed.

Lemma strip_commas_group3 (d : string) :
  all_digits d = true → strip_commas (group3 d) = d.
Proof.
  induction d as [|c d IH]; [done|].
  cbn [all_digits group3]. intros [Hc Hd]%andb_true_iff.
  assert (Ascii.eqb c "," = false) as Hne.
  { apply Ascii.eqb_neq. intros ->. done. }
  cbn [strip_commas]. rewrite Hne. f_equal.
  destruct (_ && _); cbn [strip_commas]; rewrite ?Ascii.eqb_refl; by apply IH.
Qed.

Lemma drop_last_app (t : string) (c : ascii) :
  drop_last (t +:+ String c "") = t.
Proof.
  induction t as [|a t IH]; [done|].
  change (String a t +:+ String c "") with (String a (t +:+ String c "")).
  cbn [drop_last]. rewrite IH. by destruct t.
Qed.

Lemma read_decimal_digits (n : Z) :
  0 ≤ n → read_decimal (digits n) = Some n.
Proof.
  intros Hn. unfold read_decimal, digits.
  rewrite NilZero.usu.
  - simpl. by rewrite DecimalN.Unsigned.of_to, Z2N.id.
  - destruct (Z.to_N n); [done|]. apply DecimalPos.Unsigned.to_uint_nonnil.
Qed.

Lemma group3_head (c : ascii) (d : string) :
  ∃ t, group3 (String c d) = String c t.
Proof. cbn [group3]. by eexists. Qed.

End ReadBack.

(** X20. A formatted number reads back: dropping the separators and taking
    parentheses for a minus sign gives again the integer that was formatted
    (the truncation of the input), for every integer and every finite float;
    the placeholder ["-"] reads back as no number. *)
Theorem fmt_parenthesis_reads_back :
  (∀ x i, isna x = false → to_int x = Some i →
          ∃ s, fmt_parenthesis x = Some s ∧ unformat s = Some i) ∧
  unformat "-" = None.
Proof.
  split; [|done]. intros x i Hna Hi.
  rewrite (fmt_parenthesis_int x i Hna Hi). eexists. split; [reflexivity|].
  destruct (Z.ltb_spec i 0) as [Hlt|Hge].
  - change ("(" +:+ group3 (digits (Z.abs i)) +:+ ")")
      with (String "(" (group3 (digits (Z.abs i)) +:+ String ")" "")).
    cbn [unformat]. rewrite Ascii.eqb_refl, drop_last_app.
    rewrite strip_commas_group3 by apply digits_all_digits.
    rewrite read_decimal_digits by lia. simpl. f_equal. lia.
  - destruct (digits_all_digits i) as [Hd Hne].
    destruct (digits i) as [|c d] eqn:E; [done|].
    destruct (group3_head c d) as [t Ht]. rewrite Ht. cbn [unformat].
    assert (Ascii.eqb c "(" = false) as ->.
    { apply Ascii.eqb_neq. intros ->. done. }
    rewrite <- Ht, strip_commas_group3 by done.
    rewrite <- E. by apply read_decimal_digits.
Qed.

Lemma fmt_parenthesis_reads_back_witness :
  ∃ s, fmt_parenthesis (FloatVal float_m1234_9) = Some s ∧
       unformat s = Some (-1234).
Proof.
  apply (proj1 fmt_parenthesis_reads_back); reflexivity.
Defined.

(** ** Loading *)

Section Script.

Lemma existsb_endswith (suffix : string) (df : csv) :
  any_endswith suffix df = true ↔
  ∃ c, c ∈ csv_columns df ∧ PyStr.endswith suffix c = true.
Proof.
  unfold any_endswith. rewrite existsb_exists.
  split; intros (c & Hin & Hc); exists c; (split; [|done]);
    by apply list_elem_of_In.
Qed.

Lemma lookup_list_to_map_fn (f : string → Z) (l : list string) (k : string) :
  (list_to_map ((λ u, (u, f u)) <$> l) : gmap string Z) !! k
  = if decide (k ∈ l) then Some (f k) else None.
Proof.
  induction l as [|x l IH].
  - by rewrite decide_False by apply not_elem_of_nil.
  - rewrite fmap_cons, list_to_map_cons, lookup_insert, IH.
    destruct (decide (x = k)) as [->|Hne].
    { by rewrite decide_True by (apply elem_of_cons; by left). }
    destruct (decide (k ∈ l)).
    + by rewrite decide_True by (apply elem_of_cons; by right).
    + by rewrite decide_False by (rewrite elem_of_cons; intros [?|?]; done).
Qed.

Lemma count_of_unit_counts_of (cons_df : csv) (entered : string → N)
    (u : string) :
  count_of (unit_counts_of cons_df entered) u
  = if decide (u ∈ unit_type <$> csv_rows cons_df)
    then Z.of_N (entered u) else 0.
Proof.
  unfold count_of, unit_counts_of.
  rewrite (lookup_list_to_map_fn (λ u, Z.of_N (entered u))).
  destruct (decide (u ∈ remove_dups (unit_type <$> csv_rows cons_df)))
    as [H|H]; rewrite elem_of_remove_dups in H.
  - by rewrite decide_True.
  - by rewrite decide_False.
Qed.

(** The outcome of [load_consumption], by what the path holds. *)
Lemma load_consumption_outcome (files : gmap string (option csv)) (path : string) :
  match files !! path with
  | None =>
      load_consumption files path = Stop ("Consumption CSV not found: " +:+ path)
  | Some None => load_consumption files path = Raise
  | Some (Some df) =>
      (consumption_ok df ∧ load_consumption files path = Ok df) ∨
      (¬ consumption_ok df ∧ ∃ msg, load_consumption files path = Stop msg)
  end.
Proof.
  unfold load_consumption, consumption_ok.
  destruct (files !! path) as [[df|]|]; [|done|done].
  rewrite <- existsb_endswith.
  destruct (decide ("unit_type" ∈ csv_columns df)) as [Hu|Hu];
    [rewrite (bool_decide_eq_true_2 _ Hu) | rewrite (bool_decide_eq_false_2 _ Hu)];
    simpl; [|right; split; [by intros [? _] | by eexists]].
  destruct (decide ("action" ∈ csv_columns df)) as [Ha|Ha];
    [rewrite (bool_decide_eq_true_2 _ Ha) | rewrite (bool_decide_eq_false_2 _ Ha)];
    simpl; [|right; split; [by intros (_ & ? & _) | by eexists]].
  destruct (any_endswith RATE_SUFFIX df) eqn:E; simpl.
  - by left.
  - right. split; [by intros (_ & _ & ?) | by eexists].
Qed.

Lemma load_capacity_outcome (files : gmap string (option csv)) (path : string) :
  match files !! path with
  | None =>
      load_capacity files path = Stop ("Capacity CSV not found: " +:+ path)
  | Some None => load_capacity files path = Raise
  | Some (Some df) =>
      (capacity_ok df ∧ load_capacity files path = Ok df) ∨
      (¬ capacity_ok df ∧ ∃ msg, load_capacity files path = Stop msg)
  end.
Proof.
  unfold load_capacity, capacity_ok.
  destruct (files !! path) as [[df|]|]; [|done|done].
  rewrite <- existsb_endswith.
  destruct (decide ("unit_type" ∈ csv_columns df)) as [Hu|Hu];
    [rewrite (bool_decide_eq_true_2 _ Hu) | rewrite (bool_decide_eq_false_2 _ Hu)];
    simpl; [|right; split; [by intros [? _] | by eexists]].
  destruct (any_endswith CAP_SUFFIX df) eqn:E; simpl.
  - by left.
  - right. split; [by intros (_ & ?) | by eexists].
Qed.

Lemma load_consumption_Ok_iff (files : gmap string (option csv)) (path : string)
    (df : csv) :
  load_consumption files path = Ok df ↔
  files !! path = Some (Some df) ∧ consumption_ok df.
Proof.
  pose proof (load_consumption_outcome files path) as H.
  destruct (files !! path) as [[df'|]|].
  - destruct H as [[Hok E]|[Hno [msg E]]]; rewrite E.
    + split; [by intros [= <-] | by intros [[= <-] _]].
    + split; [done | by intros [[= <-] ?]].
  - rewrite H. split; [done | by intros [? _]].
  - rewrite H. split; [done | by intros [? _]].
Qed.

Lemma load_capacity_Ok_iff (files : gmap string (option csv)) (path : string)
    (df : csv) :
  load_capacity files path = Ok df ↔
  files !! path = Some (Some df) ∧ capacity_ok df.
Proof.
  pose proof (load_capacity_outcome files path) as H.
  destruct (files !! path) as [[df'|]|].
  - destruct H as [[Hok E]|[Hno [msg E]]]; rewrite E.
    + split; [by intros [= <-] | by intros [[= <-] _]].
    + split; [done | by intros [[= <-] ?]].
  - rewrite H. split; [done | by intros [? _]].
  - rewrite H. split; [done | by intros [? _]].
Qed.

Lemma load_data_body_Ok (files : gmap string (option csv)) (cons_df cap_df : csv) :
  load_data_body files = Ok (cons_df, cap_df) ↔
  (files !! CONSUMPTION_CSV = Some (Some cons_df) ∧ consumption_ok cons_df) ∧
  (files !! CAPACITY_CSV = Some (Some cap_df) ∧ capacity_ok cap_df).
Proof.
  rewrite <- load_consumption_Ok_iff, <- load_capacity_Ok_iff.
  unfold load_data_body.
  destruct (load_consumption files CONSUMPTION_CSV) as [m1| |df1];
    [split; [done | by intros [? _]].. |].
  destruct (load_capacity files CAPACITY_CSV) as [m2| |df2];
    [split; [done | by intros [_ ?]].. |].
  split; [by intros [= <- <-] | by intros [[= <-] [= <-]]].
Qed.

(** The tables that passed the checks offer columns to select. *)
Lemma checked_tables_offer (cons_df cap_df : csv) :
  consumption_ok cons_df → capacity_ok cap_df →
  rate_cols cons_df ≠ [] ∧ cap_cols cap_df ≠ [] ∧
  (∀ c, c ∈ rate_cols cons_df → ∃ b, c = b +:+ RATE_SUFFIX) ∧
  (∀ c, c ∈ cap_cols cap_df → ∃ b, c = b +:+ CAP_SUFFIX).
Proof.
  intros (_ & _ & c1 & Hc1 & Hs1) (_ & c2 & Hc2 & Hs2).
  split; [|split; [|split]].
  - apply filter_nonempty_iff. by exists c1.
  - apply filter_nonempty_iff. by exists c2.
  - intros c [Hc _]%list_elem_of_filter. by apply endswith_iff.
  - intros c [Hc _]%list_elem_of_filter. by apply endswith_iff.
Qed.

End Script.

(** X21. The outcome of a loader is decided by the file.  A path that does
    not exist stops the run with the message naming the path; a file that
    [pd.read_csv] cannot read raises, with no message; a file that is read
    is returned as read exactly when it passes the checks (the consumption
    file must have the columns [unit_type] and [action] and a column ending
    in [_rate], the capacity file the column [unit_type] and a column ending
    in [_cap]), and stops the run with a message otherwise. *)
Theorem loaders_accept_iff (files : gmap string (option csv)) (path : string) :
  ((∀ df, load_consumption files path = Ok df ↔
          files !! path = Some (Some df) ∧ consumption_ok df) ∧
   (load_consumption files path = Raise ↔ files !! path = Some None) ∧
   ((∃ msg, load_consumption files path = Stop msg) ↔
    files !! path = None ∨
    ∃ df, files !! path = Some (Some df) ∧ ¬ consumption_ok df) ∧
   (files !! path = None →
    load_consumption files path
    = Stop ("Consumption CSV not found: " +:+ path))) ∧
  ((∀ df, load_capacity files path = Ok df ↔
          files !! path = Some (Some df) ∧ capacity_ok df) ∧
   (load_capacity files path = Raise ↔ files !! path = Some None) ∧
   ((∃ msg, load_capacity files path = Stop msg) ↔
    files !! path = None ∨
    ∃ df, files !! path = Some (Some df) ∧ ¬ capacity_ok df) ∧
   (files !! path = None →
    load_capacity files path = Stop ("Capacity CSV not found: " +:+ path))).
Proof.
  split.
  - split; [intros df; apply load_consumption_Ok_iff|].
    pose proof (load_consumption_outcome files path) as H.
    destruct (files !! path) as [[df|]|].
    + destruct H as [[Hok E]|[Hno [msg E]]]; rewrite E.
      * split; [done|]. split; [|done].
        split; [by intros [? ?] | intros [?|(df' & [= <-] & ?)]; done].
      * split; [done|]. split; [|done].
        split; [intros _; right; by exists df | by eexists].
    + rewrite H. split; [done|]. split; [|done].
      split; [by intros [? ?] | intros [?|(df' & ? & _)]; done].
    + rewrite H. split; [done|]. split; [|done].
      split; [by left | by eexists].
  - split; [intros df; apply load_capacity_Ok_iff|].
    pose proof (load_capacity_outcome files path) as H.
    destruct (files !! path) as [[df|]|].
    + destruct H as [[Hok E]|[Hno [msg E]]]; rewrite E.
      * split; [done|]. split; [|done].
        split; [by intros [? ?] | intros [?|(df' & [= <-] & ?)]; done].
      * split; [done|]. split; [|done].
        split; [intros _; right; by exists df | by eexists].
    + rewrite H. split; [done|]. split; [|done].
      split; [by intros [? ?] | intros [?|(df' & ? & _)]; done].
    + rewrite H. split; [done|]. split; [|done].
      split; [by left | by eexists].
Qed.

Lemma loaders_accept_iff_witness :
  load_consumption ScenarioFiles.files "nowhere.csv"
  = Stop "Consumption CSV not found: nowhere.csv" ∧
  load_capacity ScenarioFiles.files "nowhere.csv"
  = Stop "Capacity CSV not found: nowhere.csv" ∧
  load_consumption ScenarioFiles.files CONSUMPTION_CSV
  = Ok ScenarioFiles.cons_csv ∧
  load_consumption (<[CONSUMPTION_CSV := None]> ScenarioFiles.files)
    CONSUMPTION_CSV = Raise.
Proof.
  split; [|split; [|split]].
  - by apply (loaders_accept_iff ScenarioFiles.files "nowhere.csv").
  - by apply (loaders_accept_iff ScenarioFiles.files "nowhere.csv").
  - apply (loaders_accept_iff ScenarioFiles.files CONSUMPTION_CSV).
    split; [reflexivity|]. split; [|split].
    + apply elem_of_cons. by left.
    + apply elem_of_cons. right. apply elem_of_cons. by left.
    + exists "CL_III_rate". split; [|reflexivity].
      do 2 (apply elem_of_cons; right). apply elem_of_cons. by left.
  - by apply (loaders_accept_iff (<[CONSUMPTION_CSV := None]> ScenarioFiles.files)
                CONSUMPTION_CSV).
Defined.

(** X22. [load_data] and its cache.  On an empty cache a call that returns
    gives the two files as read, and fills the cache with them; on a filled
    cache it returns the cached tables whatever the files hold, so a later
    call gives the tables of the first.  Either way, with a cache that only
    [load_data] has filled, the tables it returns passed the checks: the
    consumption table offers at least one rate column and the capacity table
    at least one capacity column, and every offered column ends with its
    suffix. *)
Theorem load_data_offers_columns (cache : option (csv * csv))
    (files : gmap string (option csv)) (cons_df cap_df : csv)
    (cache' : option (csv * csv)) :
  cache_sound cache →
  load_data cache files = (Ok (cons_df, cap_df), cache') →
  (cache = None →
   files !! CONSUMPTION_CSV = Some (Some cons_df) ∧
   files !! CAPACITY_CSV = Some (Some cap_df)) ∧
  (∀ tables, cache = Some tables → tables = (cons_df, cap_df)) ∧
  cache' = Some (cons_df, cap_df) ∧ cache_sound cache' ∧
  (∀ files', load_data cache' files' = (Ok (cons_df, cap_df), cache')) ∧
  rate_cols cons_df ≠ [] ∧ cap_cols cap_df ≠ [] ∧
  (∀ c, c ∈ rate_cols cons_df → ∃ b, c = b +:+ RATE_SUFFIX) ∧
  (∀ c, c ∈ cap_cols cap_df → ∃ b, c = b +:+ CAP_SUFFIX).
Proof.
  intros Hsound E.
  assert (cache' = Some (cons_df, cap_df) ∧
          ∃ files0, load_data_body files0 = Ok (cons_df, cap_df)) as [-> [files0 E0]].
  { unfold load_data in E. destruct cache as [tables|].
    - injection E as -> <-. split; [done|]. by apply Hsound.
    - destruct (load_data_body files) as [msg| |tables] eqn:Eb; try done.
      injection E as -> <-. split; [done|]. by exists files. }
  split; [|split; [|split; [done|split; [|split]]]].
  - intros ->. unfold load_data in E.
    destruct (load_data_body files) as [msg| |tables] eqn:Eb; try done.
    injection E as ->. apply load_data_body_Ok in Eb as [[? _] [? _]]. done.
  - intros tables ->. unfold load_data in E. by injection E as ->.
  - intros tables [= <-]. by exists files0.
  - done.
  - apply load_data_body_Ok in E0 as [[_ H1] [_ H2]].
    by apply checked_tables_offer.
Qed.

Lemma load_data_offers_columns_witness :
  load_data None ScenarioFiles.files
  = (Ok (ScenarioFiles.cons_csv, ScenarioFiles.cap_csv),
     Some (ScenarioFiles.cons_csv, ScenarioFiles.cap_csv)) ∧
  (∀ files', load_data (Some (ScenarioFiles.cons_csv, ScenarioFiles.cap_csv)) files'
             = (Ok (ScenarioFiles.cons_csv, ScenarioFiles.cap_csv),
                Some (ScenarioFiles.cons_csv, ScenarioFiles.cap_csv))) ∧
  rate_cols ScenarioFiles.cons_csv ≠ [] ∧ cap_cols ScenarioFiles.cap_csv ≠ [].
Proof.
  split; [reflexivity|].
  destruct (load_data_offers_columns None ScenarioFiles.files
              ScenarioFiles.cons_csv ScenarioFiles.cap_csv
              (Some (ScenarioFiles.cons_csv, ScenarioFiles.cap_csv)))
    as (_ & _ & _ & _ & H5 & H6 & H7 & _).
  - intros tables Ht. discriminate Ht.
  - reflexivity.
  - split; [exact H5|]. split; [exact H6 | exact H7].
Defined.

(** X24. The counts come from the consumption table: a unit type counts what
    was entered for it if the consumption table has a row of that type, and
    0 otherwise.  So a capacity row of a unit type without any consumption
    row adds nothing to the total capacity, and no count is negative. *)
Theorem counts_from_consumption (cons_df cap_df : csv) (act : string)
    (entered : string → N) (sr sc : list string)
    rd cd (tr tc : gmap string Z) :
  compute_totals (frame_of cons_df) (frame_of cap_df) act
    (unit_counts_of cons_df entered) sr sc = Some (rd, cd, tr, tc) →
  (∀ u, count_of (unit_counts_of cons_df entered) u
        = if decide (u ∈ unit_type <$> csv_rows cons_df)
          then Z.of_N (entered u) else 0) ∧
  nonneg_counts (unit_counts_of cons_df entered) ∧
  (∀ c, c ∈ sc →
        ∃ v, tc !! c = Some v ∧
             int64_of
               (exact_sum
                  ((λ r, if decide (unit_type r ∈ unit_type <$> csv_rows cons_df)
                         then cell r c * Z.of_N (entered (unit_type r))
                         else 0) <$> csv_rows cap_df)) v).
Proof.
  intros (_ & _ & _ & Htc)%compute_totals_inv.
  split; [apply count_of_unit_counts_of|]. split.
  - intros u n Hu. pose proof (count_of_unit_counts_of cons_df entered u) as E.
    unfold count_of in E. rewrite Hu in E. subst n. case_decide; lia.
  - intros c Hc. eexists. rewrite Htc, decide_True by done.
    split; [reflexivity|].
    replace (exact_sum _) with (capacity_of (frame_of cap_df)
                                  (unit_counts_of cons_df entered) c);
      [apply int64_of_wrap|].
    unfold capacity_of. simpl. f_equal. apply list_fmap_ext. intros _ r _.
    rewrite count_of_unit_counts_of. case_decide; lia.
Qed.

Lemma counts_from_consumption_witness :
  ∃ (tc : gmap string Z),
  (∀ u, count_of (unit_counts_of ScenarioFiles.cons_csv ScenarioFiles.entered) u
        = if decide (u ∈ unit_type <$> csv_rows ScenarioFiles.cons_csv)
          then Z.of_N (ScenarioFiles.entered u) else 0) ∧
  nonneg_counts (unit_counts_of ScenarioFiles.cons_csv ScenarioFiles.entered) ∧
  (∀ c, c ∈ Scenario.sel_caps →
        ∃ v, tc !! c = Some v ∧
             int64_of
               (exact_sum
                  ((λ r, if decide (unit_type r ∈ unit_type <$>
                                      csv_rows ScenarioFiles.cons_csv)
                         then cell r c
                              * Z.of_N (ScenarioFiles.entered (unit_type r))
                         else 0) <$> csv_rows ScenarioFiles.cap_csv)) v).
Proof.
  eexists.
  eapply (counts_from_consumption ScenarioFiles.cons_csv ScenarioFiles.cap_csv
            "Assault" ScenarioFiles.entered Scenario.sel_rates Scenario.sel_caps).
  reflexivity.
Defined.

(** ** Splits and deficits against the whole *)

(** X25. A split never exceeds the whole, as long as the totals fit int64:
    with no negative total, and with the total requirements of the selected
    rate columns and the total capacities of the selected capacity columns
    each adding up to less than [2^63], in every row that has the bulk
    fields Bulk Cap is at most Capacity and Bulk Surplus at most
    Surplus/(Deficit), and likewise for the wheeled fields. *)
Theorem split_within_group (tr tc : gmap string Z) (sr sc : list string)
    (summary : list (gmap string value)) (row : gmap string value) :
  (∀ c v, tr !! c = Some v → 0 ≤ v) →
  (∀ c v, tc !! c = Some v → 0 ≤ v) →
  exact_sum ((λ c, default 0 (tr !! c)) <$> sr) < 9223372036854775808 →
  exact_sum ((λ c, default 0 (tc !! c)) <$> sc) < 9223372036854775808 →
  build_group_summary tr tc sr sc = Some summary →
  row ∈ summary →
  ∃ cap s,
    row !! "Capacity" = Some (VNum cap) ∧
    row !! "Surplus/(Deficit)" = Some (VNum s) ∧
    (∀ b, row !! "Bulk Cap" = Some (VNum b) →
          b ≤ cap ∧ ∃ bs, row !! "Bulk Surplus" = Some (VNum bs) ∧ bs ≤ s) ∧
    (∀ w, row !! "Wheeled Cap" = Some (VNum w) →
          w ≤ cap ∧ ∃ ws, row !! "Wheeled Surplus" = Some (VNum ws) ∧ ws ≤ s).
Proof.
  intros Nr Nc Br Bc Hs Hin.
  destruct (build_group_summary_row _ _ _ _ _ _ Hs Hin) as (g & _ & Hg).
  apply group_row_inv in Hg
    as (req & cap & bulk & wheel & deficit & Hreq & Hcap & Hb & Hw & _ & ->).
  apply sum_or_none_inv in Hb, Hw.
  destruct (sum_over_part tr (λ c, group_prefix c = g) _ _ Nr Br Hreq)
    as (_ & Nreq & Lreq).
  destruct (sum_over_part tc (λ c, group_prefix c = g) _ _ Nc Bc Hcap)
    as (Ecap & Ncap & Lcap).
  assert (∀ l b, sum_over tc (filter (λ c, PyStr.contains l c = true)
                                (filter (λ c, group_prefix c = g) sc)) b →
                 0 ≤ b ≤ cap) as Nsplit.
  { intros l b Hsum.
    assert (exact_sum ((λ c, default 0 (tc !! c))
                         <$> filter (λ c, group_prefix c = g) sc)
            < 9223372036854775808) as Bg by lia.
    destruct (sum_over_part tc (λ c, PyStr.contains l c = true) _ _ Nc Bg Hsum)
      as (_ & ? & ?). lia. }
  destruct (summary_row_fields g req cap (wrap64 (cap - req)) deficit bulk wheel
              (λ b, wrap64 (b - req)) (λ w, wrap64 (w - req)))
    as (_ & _ & F3 & F4 & _ & F6 & F7 & F8 & F9).
  exists cap, (wrap64 (cap - req)). split; [done|]. split; [done|].
  split.
  - intros b. rewrite F6, F7. destruct bulk as [b'|]; [|done].
    intros [= <-]. destruct Hb as [_ Hb]. pose proof (Nsplit _ _ Hb).
    split; [lia|]. eexists. split; [reflexivity|].
    rewrite !wrap64_small by (unfold in_int64; lia). lia.
  - intros w. rewrite F8, F9. destruct wheel as [w'|]; [|done].
    intros [= <-]. destruct Hw as [_ Hw]. pose proof (Nsplit _ _ Hw).
    split; [lia|]. eexists. split; [reflexivity|].
    rewrite !wrap64_small by (unfold in_int64; lia). lia.
Qed.

Lemma split_within_group_witness :
  ∃ cap s,
    Scenario.row !! "Capacity" = Some (VNum cap) ∧
    Scenario.row !! "Surplus/(Deficit)" = Some (VNum s) ∧
    (∀ b, Scenario.row !! "Bulk Cap" = Some (VNum b) →
          b ≤ cap ∧
          ∃ bs, Scenario.row !! "Bulk Surplus" = Some (VNum bs) ∧ bs ≤ s) ∧
    (∀ w, Scenario.row !! "Wheeled Cap" = Some (VNum w) →
          w ≤ cap ∧
          ∃ ws, Scenario.row !! "Wheeled Surplus" = Some (VNum ws) ∧ ws ≤ s).
Proof.
  apply (split_within_group Scenario.total_req Scenario.total_cap
           Scenario.sel_rates Scenario.sel_caps [Scenario.row]).
  - intros c v. unfold Scenario.total_req.
    intros [_ <-]%lookup_singleton_Some. lia.
  - intros c v. unfold Scenario.total_cap. rewrite lookup_insert.
    case_decide; [intros [= <-]; lia|].
    intros [_ <-]%lookup_singleton_Some. lia.
  - reflexivity.
  - reflexivity.
  - reflexivity.
  - apply elem_of_cons. by left.
Defined.

(** A split can exceed a whole that does not fit: two capacity columns of
    [2^62] each give the Capacity [-2^63], below the Bulk Cap [2^62]. *)
Example split_exceeds_on_overflow :
  build_group_summary {["G_rate" := 0]}
    (<["G_bulk_cap" := 4611686018427387904]>
       {["G_x_cap" := 4611686018427387904]})
    ["G_rate"] ["G_bulk_cap"; "G_x_cap"]
  = Some [summary_row "G" 0 (-9223372036854775808) (-9223372036854775808) ["G"]
            (Some 4611686018427387904) (Some 4611686018427387904) None None].
Proof. reflexivity. Qed.

(** X26. The deficit detection and the detail table agree unless the
    subtraction overflows: when Capacity minus Requirement of a rate
    column's detail row is in the range of int64, the column's own total
    requirement exceeds its matched capacity (so that the column is listed
    when its group's surplus is negative) exactly when that row shows a
    negative surplus. *)
Theorem deficit_iff_detail_negative (tr tc : gmap string Z) (sc : list string)
    (rate : string) (row : gmap string value) :
  comp_row tr tc sc rate = Some row →
  ∃ req cap s,
    row !! "Requirement" = Some (VNum req) ∧
    row !! "Capacity" = Some (VNum cap) ∧
    row !! "Surplus/(Deficit)" = Some (VNum s) ∧
    (in_int64 (cap - req) → (short tr tc sc rate ↔ s < 0)).
Proof.
  intros (req & cap & Hreq & Hcap & _ & F2 & F3 & F4)%comp_row_inv.
  exists req, cap, (wrap64 (cap - req)). repeat (split; [done|]).
  intros Hsmall. rewrite wrap64_small by done. split.
  - intros (r & m & Hr & Hm & Hlt). simplify_eq.
    pose proof (sum_over_unique _ _ _ _ Hcap Hm). lia.
  - intros Hlt. exists req, cap. repeat (split; [done|]). lia.
Qed.

Lemma deficit_iff_detail_negative_witness :
  ∃ req cap s,
    (<["Surplus/(Deficit)" := VNum (-6)]>
       (<["Capacity" := VNum 14]>
          (<["Requirement" := VNum 20]>
             (<["Subtype" := VStr "CL_III"]> (∅ : gmap string value)))))
      !! "Surplus/(Deficit)" = Some (VNum s) ∧
    s = -6 ∧ req = 20 ∧ cap = 14 ∧
    (short Scenario.total_req Scenario.total_cap Scenario.sel_caps
       "CL_III_rate" ↔ s < 0).
Proof.
  destruct (deficit_iff_detail_negative Scenario.total_req Scenario.total_cap
              Scenario.sel_caps "CL_III_rate" _ eq_refl)
    as (req & cap & s & Hreq & Hcap & Hs & Hiff).
  change (Some (VNum 20) = Some (VNum req)) in Hreq.
  change (Some (VNum 14) = Some (VNum cap)) in Hcap.
  change (Some (VNum (-6)) = Some (VNum s)) in Hs.
  injection Hreq as <-. injection Hcap as <-. injection Hs as <-.
  exists 20, 14, (-6). split; [reflexivity|]. repeat (split; [reflexivity|]).
  apply Hiff. unfold in_int64. lia.
Defined.

(** With an overflow they differ: the requirement [-2^63] is below the
    capacity 1, so the column is not in deficit, but 1 minus [-2^63] wraps
    around to a negative surplus. *)
Example deficit_differs_on_overflow :
  deficit_loop {["X_rate" := -9223372036854775808]} {["X_cap" := 1]} ["X_cap"]
    ["X_rate"] = Some [] ∧
  comp_row {["X_rate" := -9223372036854775808]} {["X_cap" := 1]} ["X_cap"]
    "X_rate"
  = Some (<["Surplus/(Deficit)" := VNum (-9223372036854775807)]>
           (<["Capacity" := VNum 1]>
             (<["Requirement" := VNum (-9223372036854775808)]>
               (<["Subtype" := VStr "X"]> ∅)))).
Proof. split; reflexivity. Qed.
